(** * Traffic aggregator (Version02_Traffic.cpp): model and properties

    The program runs five sensor threads, one logger thread and the main
    thread over two shared objects, the vector [sensor_data] and the atomic
    [shutdown_flag].  The model below is an interleaving semantics: every
    thread is a program counter, a schedule is a list of events, and [step]
    runs one thread from one program point to the next.  Every region the
    source guards with [data_mutex] is one atomic step, so the mutex itself
    needs no state.  Time is a millisecond clock advanced by [Tick]. *)

From stdpp Require Import base list.
From Stdlib Require Import ZArith Lia.

#[local] Open Scope Z_scope.

(** ** Machine integers *)

Definition INT_MAX : Z := 2147483647.

(** A C++ [int] is 32 bits wide; [wrap_int] is the two's complement value an
    [int] computation leaves (signed overflow is undefined in C++; the
    theorems that depend on [total] assume the sum fits). *)
Definition wrap_int (z : Z) : Z := Z.modulo (z + 2 ^ 31) (2 ^ 32) - 2 ^ 31.

(** ** Constants of the source *)

Definition SENSOR_COUNT : nat := 5.
Definition SENSOR_UPDATE_INTERVAL : N := 1500.
Definition AGGREGATION_INTERVAL : N := 3000.
Definition CONGESTION_THRESHOLD : Z := 80.
Definition RUN_DURATION : N := 60000.

(** ** Data *)

Record TrafficData := mkTrafficData {
  sensor_id : Z;
  density : Z;
  timestamp : N
}.

(** What the logger writes: an alert line on [std::cerr], a summary line in
    the log file, and the message of a failed open on [std::cerr]. *)
Inductive Output :=
| Alert (sensor : Z) (dens : Z)
| LogLine (avg min max : Z)
| OpenFailed.

(** ** The body of one logger cycle (lines 77 to 93) *)

(** The three accumulators declared on line 78. *)
Record Acc := mkAcc { total : Z; min_val : Z; max_val : Z }.

Definition acc0 : Acc := mkAcc 0 100 0.

(** Lines 80 to 82. *)
Definition accumulate (a : Acc) (d : TrafficData) : Acc :=
  mkAcc (wrap_int (total a + density d))
        (Z.min (min_val a) (density d))
        (Z.max (max_val a) (density d)).

(** Lines 83 to 87. *)
Definition alert_of (d : TrafficData) : list Output :=
  if CONGESTION_THRESHOLD <? density d then [Alert (sensor_id d) (density d)]
  else [].

(** The range-for of lines 79 to 88: the accumulators after the loop and
    the alert lines written meanwhile. *)
Fixpoint for_each (l : list TrafficData) (a : Acc) : Acc * list Output :=
  match l with
  | [] => (a, [])
  | d :: r =>
      let '(a', al) := for_each r (accumulate a d) in (a', alert_of d ++ al)
  end.

(** [static_cast<int>(local_data.size())]. *)
Definition size_as_int (l : list TrafficData) : Z :=
  wrap_int (Z.of_nat (length l)).

(** Line 90; [/] on [int] truncates toward zero.  (A size that is a
    multiple of 2^32 would make the divisor 0, which is undefined in C++;
    no theorem below depends on the value chosen here for that case.) *)
Definition average (a : Acc) (l : list TrafficData) : Z :=
  wrap_int (Z.quot (total a) (size_as_int l)).

(** Lines 77 to 93: everything one cycle writes, in program order. *)
Definition logger_report (local_data : list TrafficData) : list Output :=
  match local_data with
  | [] => []
  | _ :: _ =>
      let '(a, al) := for_each local_data acc0 in
      al ++ [LogLine (average a local_data) (min_val a) (max_val a)]
  end.

(** ** Threads *)

(** Program points of [sensor_task]. *)
Inductive SensorPc :=
| SCheck                      (* line 41, about to load the flag *)
| SSleep (remaining : N)      (* line 42, inside sleep_for *)
| SPush (data : TrafficData)  (* line 43 done, callback about to lock *)
| SNotify                     (* line 54 *)
| SDone.

(** Program points of [logger_task]. *)
Inductive LoggerPc :=
| LOpen                               (* line 59 *)
| LCheck                              (* line 65, about to load the flag *)
| LLock                               (* line 67 *)
| LWait (remaining : N)               (* line 68, inside wait_for *)
| LWoken                              (* line 68, notified *)
| LDrain                              (* line 73 *)
| LReport (local_data : list TrafficData)   (* line 77 *)
| LDone.

(** Program points of [main] once the threads are started. *)
Inductive MainPc :=
| MSleep (remaining : N)     (* line 110 *)
| MNotify                    (* line 112 *)
| MJoin                      (* lines 114 and 115 *)
| MDone.

Record State := mkState {
  now : N;
  sensor_data : list TrafficData;
  shutdown_flag : bool;
  sensors : list SensorPc;
  logger : LoggerPc;
  main_pc : MainPc;
  out : list (Output * bool)
}.

Definition init : State :=
  mkState 0%N [] false (replicate SENSOR_COUNT SCheck) LOpen
          (MSleep RUN_DURATION) [].

Definition set_data (b : list TrafficData) (s : State) : State :=
  mkState (now s) b (shutdown_flag s) (sensors s) (logger s) (main_pc s)
          (out s).
Definition set_flag (f : bool) (s : State) : State :=
  mkState (now s) (sensor_data s) f (sensors s) (logger s) (main_pc s)
          (out s).
Definition set_sensors (l : list SensorPc) (s : State) : State :=
  mkState (now s) (sensor_data s) (shutdown_flag s) l (logger s) (main_pc s)
          (out s).
Definition set_logger (p : LoggerPc) (s : State) : State :=
  mkState (now s) (sensor_data s) (shutdown_flag s) (sensors s) p (main_pc s)
          (out s).
Definition set_main (p : MainPc) (s : State) : State :=
  mkState (now s) (sensor_data s) (shutdown_flag s) (sensors s) (logger s) p
          (out s).
Definition set_out (o : list (Output * bool)) (s : State) : State :=
  mkState (now s) (sensor_data s) (shutdown_flag s) (sensors s) (logger s)
          (main_pc s) o.

(** ** Shared operations *)

(** [sensor_data.push_back(std::move(data))], line 52. *)
Definition push_back (b : list TrafficData) (d : TrafficData) :
  list TrafficData := b ++ [d].

(** [local_data.swap(sensor_data)] with [local_data] empty, line 74: the
    pair of the new [local_data] and the new [sensor_data]. *)
Definition swap_out (b : list TrafficData) :
  list TrafficData * list TrafficData := (b, []).

(** [cv.notify_all()]: only the logger ever waits on [cv]. *)
Definition notify_all (s : State) : State :=
  match logger s with
  | LWait _ => set_logger LWoken s
  | _ => s
  end.

(** Lines 111 and 112 of [main]. *)
Definition signal_stop (s : State) : State := notify_all (set_flag true s).

(** The value [generate_density] draws lies in [10, 100] (line 35). *)
Definition density_in_range (d : Z) : bool := (10 <=? d) && (d <=? 100).

(** ** Steps *)

Inductive Event :=
| Tick                                (* one millisecond passes *)
| RunSensor (i : nat) (d : Z)         (* d: what the generator draws *)
| RunLogger (cerr_ok file_ok : bool)  (* outcome of the stream writes *)
| RunMain
| SpuriousWake.

Definition tick_sensor (p : SensorPc) : SensorPc :=
  match p with
  | SSleep n => SSleep (N.pred n)
  | _ => p
  end.

Definition tick_logger (p : LoggerPc) : LoggerPc :=
  match p with
  | LWait n => LWait (N.pred n)
  | _ => p
  end.

Definition tick_main (p : MainPc) : MainPc :=
  match p with
  | MSleep n => MSleep (N.pred n)
  | _ => p
  end.

(** One millisecond passes: the clock advances and every running timer
    counts down; a timer at 0 stays there until its thread is run. *)
Definition tick (s : State) : State :=
  mkState (N.succ (now s)) (sensor_data s) (shutdown_flag s)
          (tick_sensor <$> sensors s) (tick_logger (logger s))
          (tick_main (main_pc s)) (out s).

(** One step of [sensor_task] for sensor [i] (lines 40 to 46), the callback
    of lines 49 to 55 included: the flag is loaded on line 41 only; a sleep
    ends when its time is up; the reading is built with the density [d]
    drawn and the time of the clock, then appended under the lock, then the
    condition variable is notified. *)
Definition sensor_step (i : nat) (d : Z) (s : State) : option State :=
  match sensors s !! i with
  | Some SCheck =>
      if shutdown_flag s then Some (set_sensors (<[i := SDone]> (sensors s)) s)
      else Some (set_sensors
                   (<[i := SSleep SENSOR_UPDATE_INTERVAL]> (sensors s)) s)
  | Some (SSleep N0) =>
      if density_in_range d then
        Some (set_sensors
                (<[i := SPush (mkTrafficData (Z.of_nat i) d (now s))]>
                   (sensors s)) s)
      else None
  | Some (SSleep (Npos _)) => None
  | Some (SPush data) =>
      Some (set_sensors (<[i := SNotify]> (sensors s))
              (set_data (push_back (sensor_data s) data) s))
  | Some SNotify =>
      Some (set_sensors (<[i := SCheck]> (sensors s)) (notify_all s))
  | Some SDone => None
  | None => None
  end.

(** A write to a stream, tagged with whether the stream took it. *)
Definition stream_ok (cerr_ok file_ok : bool) (o : Output) : bool :=
  match o with
  | LogLine _ _ _ => file_ok
  | _ => cerr_ok
  end.

Definition write (cerr_ok file_ok : bool) (os : list Output) (s : State) :
  State :=
  set_out (out s ++ map (fun o => (o, stream_ok cerr_ok file_ok o)) os) s.

(** One step of [logger_task] (lines 58 to 97): a failed open is reported
    and ends the task; the flag is loaded on line 65 only; the wait ends on
    its timeout or on a notification; the swap and the report follow
    whatever the flag is.  No stream state is tested inside the loop. *)
Definition logger_step (cerr_ok file_ok : bool) (s : State) : option State :=
  match logger s with
  | LOpen =>
      if file_ok then Some (set_logger LCheck s)
      else Some (set_logger LDone (write cerr_ok file_ok [OpenFailed] s))
  | LCheck =>
      if shutdown_flag s then Some (set_logger LDone s)
      else Some (set_logger LLock s)
  | LLock => Some (set_logger (LWait AGGREGATION_INTERVAL) s)
  | LWait N0 => Some (set_logger LDrain s)
  | LWait (Npos _) => None
  | LWoken => Some (set_logger LDrain s)
  | LDrain =>
      let '(local_data, rest) := swap_out (sensor_data s) in
      Some (set_logger (LReport local_data) (set_data rest s))
  | LReport local_data =>
      Some (set_logger LCheck
              (write cerr_ok file_ok (logger_report local_data) s))
  | LDone => None
  end.

Definition all_joined (s : State) : bool :=
  forallb (fun p => match p with SDone => true | _ => false end) (sensors s)
  && match logger s with LDone => true | _ => false end.

(** One step of [main] (lines 110 to 115): after its sleep it sets the flag,
    then notifies, then waits for all threads. *)
Definition main_step (s : State) : option State :=
  match main_pc s with
  | MSleep N0 => Some (set_main MNotify (set_flag true s))
  | MSleep (Npos _) => None
  | MNotify => Some (set_main MJoin (notify_all s))
  | MJoin => if all_joined s then Some (set_main MDone s) else None
  | MDone => None
  end.

(** [wait_for] may also return without timeout or notification. *)
Definition spurious_wake (s : State) : option State :=
  match logger s with
  | LWait _ => Some (set_logger LWoken s)
  | _ => None
  end.

Definition step (e : Event) (s : State) : option State :=
  match e with
  | Tick => Some (tick s)
  | RunSensor i d => sensor_step i d s
  | RunLogger c f => logger_step c f s
  | RunMain => main_step s
  | SpuriousWake => spurious_wake s
  end.

(** A schedule runs from left to right; it has no run when one of its
    events is not enabled. *)
Fixpoint run (sched : list Event) (s : State) : option State :=
  match sched with
  | [] => Some s
  | e :: r =>
      match step e s with
      | Some s' => run r s'
      | None => None
      end
  end.

(** What a run shows: [f e s] is what step [e] taken in [s] contributes. *)
Fixpoint observe {A} (f : Event -> State -> list A) (sched : list Event)
  (s : State) : list A :=
  match sched with
  | [] => []
  | e :: r =>
      f e s ++ match step e s with
               | Some s' => observe f r s'
               | None => []
               end
  end.

(** The reading a step appends to [sensor_data]. *)
Definition pushed (e : Event) (s : State) : list TrafficData :=
  match e with
  | RunSensor i _ =>
      match sensors s !! i with
      | Some (SPush data) => [data]
      | _ => []
      end
  | _ => []
  end.

(** The reading a step of sensor [k] appends. *)
Definition pushed_by (k : nat) (e : Event) (s : State) : list TrafficData :=
  match e with
  | RunSensor i _ => if decide (i = k) then pushed e s else []
  | _ => []
  end.

(** The batch a step swaps out of [sensor_data]. *)
Definition drained (e : Event) (s : State) : list (list TrafficData) :=
  match e, logger s with
  | RunLogger _ _, LDrain => [sensor_data s]
  | _, _ => []
  end.

(** Whether a step turns the flag from false to true. *)
Definition raised (e : Event) (s : State) : list unit :=
  match step e s with
  | Some s' => if negb (shutdown_flag s) && shutdown_flag s' then [()] else []
  | None => []
  end.

(** The time a schedule takes, in milliseconds. *)
Fixpoint ticks (sched : list Event) : nat :=
  match sched with
  | [] => 0
  | Tick :: r => S (ticks r)
  | _ :: r => ticks r
  end.

(** ** Reference notions the properties are stated with *)

Definition is_least (m : Z) (l : list Z) : Prop :=
  m ∈ l ∧ ∀ x, x ∈ l → m <= x.

Definition is_greatest (m : Z) (l : list Z) : Prop :=
  m ∈ l ∧ ∀ x, x ∈ l → x <= m.

Definition sum_density (l : list TrafficData) : Z :=
  foldr (fun d acc => density d + acc) 0 l.

Definition congested (d : TrafficData) : Prop :=
  CONGESTION_THRESHOLD < density d.

#[local] Instance congested_dec d : Decision (congested d).
Proof. unfold congested. apply _. Defined.

(** Densities the generator can draw. *)
Definition readings_in_range (l : list TrafficData) : Prop :=
  Forall (fun d => 10 <= density d <= 100) l.

(** Densities between the two starting values of line 78. *)
Definition within_0_100 (l : list TrafficData) : Prop :=
  Forall (fun d => 0 <= density d <= 100) l.

(** ** Notions used for the threads and the runs *)

(** How many readings a sensor still appends once the flag is set. *)
Definition pending_push (p : SensorPc) : nat :=
  match p with
  | SSleep _ | SPush _ => 1
  | _ => 0
  end.

(** A reading as sensor [i] builds it on line 43. *)
Definition own_reading (i : nat) (d : TrafficData) : Prop :=
  sensor_id d = Z.of_nat i ∧ 10 <= density d <= 100.

(** What a step writes to the streams. *)
Definition written (e : Event) (s : State) : list Output :=
  match e, logger s with
  | RunLogger _ false, LOpen => [OpenFailed]
  | RunLogger _ _, LReport local_data => logger_report local_data
  | _, _ => []
  end.

(** The writes a state has seen, whether the streams took them or not. *)
Definition attempts (s : State) : list Output := (out s).*1.

(** Every reading in the state has a density the generator can draw. *)
Definition sampled (s : State) : Prop :=
  readings_in_range (sensor_data s)
  ∧ (∀ k data, sensors s !! k = Some (SPush data) → 10 <= density data <= 100)
  ∧ (∀ b, logger s = LReport b → readings_in_range b).

(** Two states that differ at most in which writes the streams took. *)
Definition same_but_delivery (s1 s2 : State) : Prop :=
  set_out [] s1 = set_out [] s2 ∧ attempts s1 = attempts s2.

(** Two events that differ at most in the outcome of the stream writes. *)
Definition same_thread (e1 e2 : Event) : Prop :=
  match e1, e2 with
  | RunLogger _ _, RunLogger _ _ => True
  | _, _ => e1 = e2
  end.

(** [interleaving ps l]: [l] merges the sequences [ps], keeping the order
    of each. *)
Inductive interleaving {A} : list (list A) → list A → Prop :=
| interleaving_nil ps :
    Forall (fun p => p = []) ps → interleaving ps []
| interleaving_cons ps1 x p ps2 l :
    interleaving (ps1 ++ p :: ps2) l →
    interleaving (ps1 ++ (x :: p) :: ps2) (x :: l).

(** The alert lines of a batch: one per congested reading, in order. *)
Definition alerts_for (batch : list TrafficData) : list Output :=
  (fun d => Alert (sensor_id d) (density d)) <$> filter congested batch.

(** A run that hands the logger a batch: sensor 0 samples 90 after its
    first sleep and the logger, woken by the sensor, swaps the reading
    out. *)
Definition one_reading_run : list Event :=
  [RunLogger true true; RunLogger true true; RunLogger true true;
   RunSensor 0 0]
  ++ replicate (N.to_nat SENSOR_UPDATE_INTERVAL) Tick
  ++ [RunSensor 0 90; RunSensor 0 0; RunSensor 0 0;
      RunLogger true true; RunLogger true true].

(** A run in which the stop wakes the logger: it drains, a sensor appends
    a reading, and the logger reports and leaves. *)
Definition stop_then_append : list Event :=
  [RunLogger true true; RunLogger true true; RunLogger true true;
   RunSensor 0 0]
  ++ replicate (N.to_nat RUN_DURATION) Tick
  ++ [RunMain; RunMain; RunLogger true true; RunLogger true true;
      RunSensor 0 42; RunSensor 0 0; RunLogger true true;
      RunLogger true true].

(** The state [stop_then_append] ends in. *)
Definition stop_then_append_end : State :=
  mkState 60000%N [mkTrafficData 0 42 60000%N] true
          [SNotify; SCheck; SCheck; SCheck; SCheck] LDone MJoin [].

(** A run in which the stop finds sensor 0 at the start of its sleep. *)
Definition stop_during_sleep : list Event :=
  replicate (N.to_nat RUN_DURATION) Tick ++ [RunSensor 0 0; RunMain; RunMain].

(** The steps of sensor [k] from the end of its sleep to its exit. *)
Definition finish_sleep (k : nat) (n : N) : list Event :=
  replicate (N.to_nat n) Tick
  ++ [RunSensor k 10; RunSensor k 10; RunSensor k 10; RunSensor k 10].

(** ** Notions used for the further properties *)

(** A reading as the program builds it at clock [t]: the id of one of the
    sensors started by [main], a density the generator draws, a time of
    the clock. *)
Definition well_formed_reading (t : N) (d : TrafficData) : Prop :=
  0 <= sensor_id d < Z.of_nat SENSOR_COUNT
  ∧ 10 <= density d <= 100
  ∧ (timestamp d <= t)%N.

(** The part of its current sleep a sensor has behind it. *)
Definition slept (p : SensorPc) : N :=
  match p with
  | SSleep n => SENSOR_UPDATE_INTERVAL - n
  | SPush _ => SENSOR_UPDATE_INTERVAL
  | _ => 0
  end.

(** What the logger has swapped out and not yet written. *)
Definition pending_report (s : State) : list Output :=
  match logger s with
  | LReport local_data => logger_report local_data
  | _ => []
  end.

(** A schedule that leads sensor [k] from program point [p] to its exit
    once the flag is set. *)
Definition sensor_exit (k : nat) (p : SensorPc) : list Event :=
  match p with
  | SCheck => replicate 1 (RunSensor k 10)
  | SSleep n => replicate (N.to_nat n) Tick ++ replicate 4 (RunSensor k 10)
  | SPush _ => replicate 3 (RunSensor k 10)
  | SNotify => replicate 2 (RunSensor k 10)
  | SDone => []
  end.

(** A schedule that leads the logger from program point [p] to its exit
    once the flag is set. *)
Definition logger_exit (p : LoggerPc) : list Event :=
  match p with
  | LOpen => replicate 2 (RunLogger true true)
  | LCheck => replicate 1 (RunLogger true true)
  | LLock =>
      RunLogger true true
      :: replicate (N.to_nat AGGREGATION_INTERVAL) Tick
      ++ replicate 4 (RunLogger true true)
  | LWait n => replicate (N.to_nat n) Tick ++ replicate 4 (RunLogger true true)
  | LWoken => replicate 4 (RunLogger true true)
  | LDrain => replicate 3 (RunLogger true true)
  | LReport _ => replicate 2 (RunLogger true true)
  | LDone => []
  end.

(** What holds of the flag, the clock and the exits in every state of a
    run of the program. *)
Definition shutdown_inv (s : State) : Prop :=
  match main_pc s with
  | MSleep n => shutdown_flag s = false ∧ (RUN_DURATION <= now s + n)%N
  | _ => shutdown_flag s = true ∧ (RUN_DURATION <= now s)%N
  end
  ∧ (∀ k, sensors s !! k = Some SDone → shutdown_flag s = true)
  ∧ (logger s = LDone → shutdown_flag s = true ∨ OpenFailed ∈ attempts s)
  ∧ (main_pc s = MDone → all_joined s = true).

(** A run in which the logger misses the stop notification: it has read
    the flag unset and starts to wait after [main] has notified; the
    sensors have left meanwhile. *)
Definition missed_stop_run : list Event :=
  [RunLogger true true; RunLogger true true]
  ++ replicate (N.to_nat RUN_DURATION) Tick
  ++ [RunMain; RunMain; RunSensor 0 0; RunSensor 1 0; RunSensor 2 0;
      RunSensor 3 0; RunSensor 4 0; RunLogger true true].

(** Every reading of a state is well formed, and the sensors are those
    [main] started. *)
Definition readings_inv (s : State) : Prop :=
  Forall (well_formed_reading (now s)) (sensor_data s)
  ∧ (∀ k data, sensors s !! k = Some (SPush data) →
               well_formed_reading (now s) data ∧ sensor_id data = Z.of_nat k)
  ∧ (∀ b, logger s = LReport b → Forall (well_formed_reading (now s)) b)
  ∧ length (sensors s) = SENSOR_COUNT.

(** The shortest run of the program to its end: the logger opens its
    file, the 60 s pass, [main] stops the threads and joins them. *)
Definition shortest_full_run : list Event :=
  RunLogger true true
  :: replicate (N.to_nat RUN_DURATION) Tick
  ++ [RunMain; RunMain; RunSensor 0 0; RunSensor 1 0; RunSensor 2 0;
      RunSensor 3 0; RunSensor 4 0; RunLogger true true; RunMain].

(** * Properties of one logger cycle *)

Section LoggerCycle.

Implicit Types (l : list TrafficData) (a : Acc) (d : TrafficData).

Lemma wrap_int_id z : - 2 ^ 31 <= z < 2 ^ 31 → wrap_int z = z.
Proof.
  intros Hz. unfold wrap_int.
  rewrite Z.mod_small; lia.
Qed.

Lemma for_each_cons d l a :
  for_each (d :: l) a =
    ((for_each l (accumulate a d)).1,
     alert_of d ++ (for_each l (accumulate a d)).2).
Proof. simpl. destruct (for_each l (accumulate a d)); reflexivity. Qed.

Lemma alert_of_filter d :
  alert_of d =
    (if decide (congested d) then [Alert (sensor_id d) (density d)] else []).
Proof.
  unfold alert_of, congested.
  destruct (Z.ltb_spec CONGESTION_THRESHOLD (density d)); case_decide;
    (reflexivity || lia).
Qed.

(** The alerts of a loop are those of its readings, in order. *)
Lemma for_each_alerts l a :
  (for_each l a).2 =
    (fun d => Alert (sensor_id d) (density d)) <$> filter congested l.
Proof.
  revert a. induction l as [|d l IH]; intros a; [reflexivity|].
  rewrite for_each_cons. cbn [snd]. rewrite IH, alert_of_filter.
  rewrite filter_cons. case_decide; reflexivity.
Qed.

Lemma for_each_min_le l a : min_val (for_each l a).1 <= min_val a.
Proof.
  revert a. induction l as [|d l IH]; intros a; [reflexivity|].
  rewrite for_each_cons. cbn [fst].
  etransitivity; [apply IH|]. cbn. lia.
Qed.

Lemma for_each_min_lower l a d :
  d ∈ l → min_val (for_each l a).1 <= density d.
Proof.
  revert a. induction l as [|e l IH]; intros a Hd.
  - inversion Hd.
  - rewrite for_each_cons. cbn [fst].
    apply elem_of_cons in Hd as [->|Hd]; [|by apply IH].
    etransitivity; [apply for_each_min_le|]. cbn. lia.
Qed.

Lemma for_each_min_attained l a :
  min_val (for_each l a).1 = min_val a
  ∨ ∃ d, d ∈ l ∧ min_val (for_each l a).1 = density d.
Proof.
  revert a. induction l as [|e l IH]; intros a; [by left|].
  rewrite for_each_cons. cbn [fst].
  destruct (IH (accumulate a e)) as [Heq|(d & Hd & Heq)].
  - rewrite Heq. cbn.
    destruct (Z.min_spec (min_val a) (density e)) as [[_ ->]|[_ ->]];
      [by left|].
    right. exists e. split; [apply elem_of_cons; by left|done].
  - right. exists d. split; [apply elem_of_cons; by right|done].
Qed.

Lemma for_each_max_ge l a : max_val a <= max_val (for_each l a).1.
Proof.
  revert a. induction l as [|d l IH]; intros a; [reflexivity|].
  rewrite for_each_cons. cbn [fst].
  etransitivity; [|apply IH]. cbn. lia.
Qed.

Lemma for_each_max_upper l a d :
  d ∈ l → density d <= max_val (for_each l a).1.
Proof.
  revert a. induction l as [|e l IH]; intros a Hd.
  - inversion Hd.
  - rewrite for_each_cons. cbn [fst].
    apply elem_of_cons in Hd as [->|Hd]; [|by apply IH].
    etransitivity; [|apply for_each_max_ge]. cbn. lia.
Qed.

Lemma for_each_max_attained l a :
  max_val (for_each l a).1 = max_val a
  ∨ ∃ d, d ∈ l ∧ max_val (for_each l a).1 = density d.
Proof.
  revert a. induction l as [|e l IH]; intros a; [by left|].
  rewrite for_each_cons. cbn [fst].
  destruct (IH (accumulate a e)) as [Heq|(d & Hd & Heq)].
  - rewrite Heq. cbn.
    destruct (Z.max_spec (max_val a) (density e)) as [[_ ->]|[_ ->]];
      [|by left].
    right. exists e. split; [apply elem_of_cons; by left|done].
  - right. exists d. split; [apply elem_of_cons; by right|done].
Qed.

(** The minimum accumulator is the smaller of its start and the least
    density. *)
Lemma for_each_min l a m :
  is_least m (density <$> l) →
  min_val (for_each l a).1 = Z.min (min_val a) m.
Proof.
  intros [Hin Hle].
  apply list_elem_of_fmap in Hin as (dm & -> & Hdm).
  pose proof (for_each_min_le l a) as H1.
  pose proof (for_each_min_lower l a dm Hdm) as H2.
  destruct (for_each_min_attained l a) as [H3|(d & Hd & H3)].
  - lia.
  - assert (density dm <= density d).
    { apply Hle, list_elem_of_fmap. eauto. }
    lia.
Qed.

Lemma for_each_max l a m :
  is_greatest m (density <$> l) →
  max_val (for_each l a).1 = Z.max (max_val a) m.
Proof.
  intros [Hin Hle].
  apply list_elem_of_fmap in Hin as (dm & -> & Hdm).
  pose proof (for_each_max_ge l a) as H1.
  pose proof (for_each_max_upper l a dm Hdm) as H2.
  destruct (for_each_max_attained l a) as [H3|(d & Hd & H3)].
  - lia.
  - assert (density d <= density dm).
    { apply Hle, list_elem_of_fmap. eauto. }
    lia.
Qed.

(** A non-empty list of integers has a least and a greatest element. *)
Lemma least_exists (v : list Z) : v ≠ [] → ∃ m, is_least m v.
Proof.
  induction v as [|x v IH]; [done|]. intros _.
  destruct v as [|y v].
  - exists x. split; [apply elem_of_cons; by left|].
    intros z Hz. apply list_elem_of_singleton in Hz. lia.
  - destruct IH as (m & Hm & Hle); [done|].
    exists (Z.min x m). split.
    + destruct (Z.min_spec x m) as [[_ ->]|[_ ->]];
        apply elem_of_cons; [by left|by right].
    + intros z Hz. apply elem_of_cons in Hz as [->|Hz]; [lia|].
      specialize (Hle z Hz). lia.
Qed.

Lemma greatest_exists (v : list Z) : v ≠ [] → ∃ m, is_greatest m v.
Proof.
  induction v as [|x v IH]; [done|]. intros _.
  destruct v as [|y v].
  - exists x. split; [apply elem_of_cons; by left|].
    intros z Hz. apply list_elem_of_singleton in Hz. lia.
  - destruct IH as (m & Hm & Hle); [done|].
    exists (Z.max x m). split.
    + destruct (Z.max_spec x m) as [[_ ->]|[_ ->]];
        apply elem_of_cons; [by right|by left].
    + intros z Hz. apply elem_of_cons in Hz as [->|Hz]; [lia|].
      specialize (Hle z Hz). lia.
Qed.

Lemma readings_in_range_within l : readings_in_range l → within_0_100 l.
Proof. intros H. eapply Forall_impl; [exact H|]. intros d Hd. cbn in Hd. lia. Qed.

Lemma sum_density_bounds l :
  within_0_100 l →
  0 <= sum_density l <= 100 * Z.of_nat (length l).
Proof.
  induction 1 as [|d l Hd _ IH]; [cbn; lia|].
  cbn [sum_density foldr length]. fold (sum_density l). lia.
Qed.


Example logger_report_10_50_90 :
  logger_report [mkTrafficData 0 10 0%N; mkTrafficData 1 50 0%N;
                 mkTrafficData 2 90 0%N]
  = [Alert 2 90; LogLine 50 10 90].
Proof. reflexivity. Qed.

Example logger_report_81 :
  logger_report [mkTrafficData 3 81 0%N] = [Alert 3 81; LogLine 81 81 81].
Proof. reflexivity. Qed.

Example logger_report_80 :
  logger_report [mkTrafficData 3 80 0%N] = [LogLine 80 80 80].
Proof. reflexivity. Qed.

Example logger_report_truncates :
  logger_report [mkTrafficData 0 10 0%N; mkTrafficData 1 11 0%N]
  = [LogLine 10 10 11].
Proof. reflexivity. Qed.

Example wrap_int_overflow : wrap_int (INT_MAX + 1) = - 2 ^ 31.
Proof. reflexivity. Qed.

Lemma logger_report_cons d l :
  logger_report (d :: l) =
    (for_each (d :: l) acc0).2 ++
    [LogLine (average (for_each (d :: l) acc0).1 (d :: l))
             (min_val (for_each (d :: l) acc0).1)
             (max_val (for_each (d :: l) acc0).1)].
Proof.
  unfold logger_report. destruct (for_each (d :: l) acc0). reflexivity.
Qed.

End LoggerCycle.

(** * Properties of the threads *)

(** Case analysis of an enabled step: every program point it can start
    from, with the state it leaves. *)
Ltac step_inv H :=
  unfold sensor_step, logger_step, main_step, spurious_wake, swap_out in H;
  repeat (case_match; simplify_eq).

Section Steps.

Implicit Types (s : State) (e : Event) (sched : list Event).

Lemma run_app sched1 sched2 s :
  run (sched1 ++ sched2) s = run sched1 s ≫= run sched2.
Proof.
  revert s. induction sched1 as [|e r IH]; intros s; [reflexivity|].
  cbn [run app]. destruct (step e s); [apply IH|reflexivity].
Qed.

Lemma observe_app {A} (f : Event → State → list A) sched1 sched2 s s1 :
  run sched1 s = Some s1 →
  observe f (sched1 ++ sched2) s = observe f sched1 s ++ observe f sched2 s1.
Proof.
  revert s. induction sched1 as [|e r IH]; intros s Hrun.
  - cbn in Hrun. by simplify_eq.
  - cbn [run] in Hrun. cbn [observe app].
    destruct (step e s) as [s2|]; [|done].
    rewrite (IH s2 Hrun). by rewrite app_assoc.
Qed.

(** ** The buffer *)

Lemma notify_all_data s : sensor_data (notify_all s) = sensor_data s.
Proof. unfold notify_all. by destruct (logger s). Qed.

Lemma notify_all_flag s : shutdown_flag (notify_all s) = shutdown_flag s.
Proof. unfold notify_all. by destruct (logger s). Qed.

Lemma notify_all_sensors s : sensors (notify_all s) = sensors s.
Proof. unfold notify_all. by destruct (logger s). Qed.

Lemma notify_all_out s : out (notify_all s) = out s.
Proof. unfold notify_all. by destruct (logger s). Qed.

Lemma notify_all_main s : main_pc (notify_all s) = main_pc s.
Proof. unfold notify_all. by destruct (logger s). Qed.

(** One step neither loses nor duplicates a reading. *)
Lemma step_conserves e s s' :
  step e s = Some s' →
  sensor_data s ++ pushed e s = concat (drained e s) ++ sensor_data s'.
Proof.
  intros H. destruct e as [|i d|c f| |]; cbn [step] in H.
  - simplify_eq. cbn. by rewrite app_nil_r.
  - unfold drained, pushed. step_inv H; cbn;
      rewrite ?notify_all_data, ?app_nil_r; done.
  - unfold drained, pushed. step_inv H; cbn; rewrite ?app_nil_r; done.
  - unfold drained, pushed. step_inv H; cbn;
      rewrite ?notify_all_data, ?app_nil_r; done.
  - unfold drained, pushed. step_inv H; cbn; rewrite ?app_nil_r; done.
Qed.

Lemma run_conserves sched s s' :
  run sched s = Some s' →
  sensor_data s ++ observe pushed sched s =
    concat (observe drained sched s) ++ sensor_data s'.
Proof.
  revert s. induction sched as [|e r IH]; intros s H.
  - cbn in *. simplify_eq. by rewrite app_nil_r.
  - cbn [run observe] in *. destruct (step e s) as [s1|] eqn:Hs; [|done].
    rewrite concat_app, <- app_assoc, <- (IH s1 H).
    rewrite !app_assoc. f_equal. by apply step_conserves.
Qed.

(** ** The flag *)

Lemma step_flag_stays e s s' :
  step e s = Some s' → shutdown_flag s = true → shutdown_flag s' = true.
Proof.
  intros H Hf. destruct e as [|i d|c f| |]; cbn [step] in H.
  - by simplify_eq.
  - step_inv H; cbn; rewrite ?notify_all_flag; done.
  - step_inv H; cbn; done.
  - step_inv H; cbn; rewrite ?notify_all_flag; done.
  - step_inv H; cbn; done.
Qed.

Lemma run_flag_stays sched s s' :
  run sched s = Some s' → shutdown_flag s = true → shutdown_flag s' = true.
Proof.
  revert s. induction sched as [|e r IH]; intros s H Hf.
  - cbn in H. by simplify_eq.
  - cbn [run] in H. destruct (step e s) as [s1|] eqn:Hs; [|done].
    eapply IH; [done|]. by eapply step_flag_stays.
Qed.

Lemma raised_le_1 sched s : (length (observe raised sched s) <= 1)%nat.
Proof.
  assert (Hset : ∀ sched s, shutdown_flag s = true →
                            observe raised sched s = []).
  { clear. induction sched as [|e r IH]; intros s Hf; [done|].
    cbn [observe]. unfold raised at 1. rewrite Hf. cbn.
    destruct (step e s) as [s1|] eqn:Hs; [|done].
    cbn. apply IH. by eapply step_flag_stays. }
  revert s. induction sched as [|e r IH]; intros s; [cbn; lia|].
  cbn [observe]. unfold raised at 1.
  destruct (step e s) as [s1|] eqn:Hs; [|cbn; lia].
  destruct (shutdown_flag s) eqn:Hf; cbn.
  - rewrite Hset; [cbn; lia|]. by eapply step_flag_stays.
  - destruct (shutdown_flag s1) eqn:Hf1; cbn; [|apply IH].
    rewrite Hset; [cbn; lia|done].
Qed.

End Steps.

(** ** Sensors *)

Section Sensors.

Implicit Types (s : State) (e : Event) (sched : list Event) (i k : nat).

Lemma set_flag_notify_all f s :
  notify_all (set_flag f s) = set_flag f (notify_all s).
Proof. unfold notify_all. cbn. by destruct (logger s). Qed.

(** Away from line 41 a sensor step does not read the flag. *)
Lemma sensor_step_flag_blind i d f s :
  sensors s !! i ≠ Some SCheck →
  sensor_step i d (set_flag f s) = set_flag f <$> sensor_step i d s.
Proof.
  intros Hpc. unfold sensor_step. cbn [sensors set_flag].
  destruct (sensors s !! i) as [[|[|n]|data| |]|]; try done.
  - by destruct (density_in_range d).
  - cbn. by rewrite set_flag_notify_all.
Qed.

(** At line 41 it does, and leaves at once when the flag is set. *)
Lemma sensor_step_check i d s :
  sensors s !! i = Some SCheck →
  sensor_step i d s =
    Some (set_sensors
            (<[i := if shutdown_flag s then SDone
                    else SSleep SENSOR_UPDATE_INTERVAL]> (sensors s)) s).
Proof.
  intros Hpc. unfold sensor_step. rewrite Hpc.
  by destruct (shutdown_flag s).
Qed.

Lemma lookup_tick_sensor (l : list SensorPc) i :
  (tick_sensor <$> l) !! i = tick_sensor <$> (l !! i).
Proof. apply list_lookup_fmap. Qed.

(** After the flag is set: the readings sensor [k] appends in a run and
    those it still has to append add up to what it had to append. *)
Lemma step_pending e s s' k p :
  shutdown_flag s = true →
  step e s = Some s' →
  sensors s !! k = Some p →
  ∃ p', sensors s' !! k = Some p' ∧
        (length (pushed_by k e s) + pending_push p' = pending_push p)%nat.
Proof.
  intros Hf H Hk. destruct e as [|i d|c f| |]; cbn [step] in H.
  - simplify_eq. cbn [tick sensors pushed_by]. rewrite lookup_tick_sensor, Hk.
    exists (tick_sensor p). split; [done|]. by destruct p.
  - cbn [pushed_by pushed]. destruct (decide (i = k)) as [->|Hne].
    + pose proof (lookup_lt_Some _ _ _ Hk) as Hlt.
      step_inv H; cbn [sensors set_sensors set_data];
        rewrite ?notify_all_sensors;
        rewrite list_lookup_insert_eq by done;
        eexists; (split; [done|]); cbn; done.
    + exists p. split; [|cbn; lia].
      step_inv H; cbn [sensors set_sensors set_data];
        rewrite ?notify_all_sensors;
        rewrite list_lookup_insert_ne by done; done.
  - exists p. split; [|cbn; lia]. step_inv H; cbn; done.
  - exists p. split; [|cbn; lia].
    step_inv H; cbn; rewrite ?notify_all_sensors; done.
  - exists p. split; [|cbn; lia]. step_inv H; cbn; done.
Qed.

Lemma run_pending sched s s' k p :
  shutdown_flag s = true →
  run sched s = Some s' →
  sensors s !! k = Some p →
  ∃ p', sensors s' !! k = Some p' ∧
        (length (observe (pushed_by k) sched s) + pending_push p'
         = pending_push p)%nat.
Proof.
  revert s p. induction sched as [|e r IH]; intros s p Hf H Hk.
  - cbn in *. simplify_eq. exists p. by split.
  - cbn [run observe] in *. destruct (step e s) as [s1|] eqn:Hs; [|done].
    destruct (step_pending e s s1 k p Hf Hs Hk) as (p1 & Hk1 & Hn1).
    destruct (IH s1 p1) as (p' & Hk' & Hn'); [by eapply step_flag_stays|done..|].
    exists p'. split; [done|]. rewrite length_app. lia.
Qed.

(** Every reading sensor [k] appends is one it built itself. *)
Lemma step_own e s s' k :
  (∀ data, sensors s !! k = Some (SPush data) → own_reading k data) →
  step e s = Some s' →
  Forall (own_reading k) (pushed_by k e s)
  ∧ (∀ data, sensors s' !! k = Some (SPush data) → own_reading k data).
Proof.
  intros Hown H. destruct e as [|i d|c f| |]; cbn [step] in H.
  - simplify_eq. split; [by constructor|].
    intros data. cbn [tick sensors]. rewrite lookup_tick_sensor.
    destruct (sensors s !! k) as [[]|] eqn:Hk; cbn; intros; simplify_eq.
    by apply Hown.
  - cbn [pushed_by pushed]. destruct (decide (i = k)) as [->|Hne].
    + destruct (sensors s !! k) as [p|] eqn:Hk;
        [|unfold sensor_step in H; rewrite Hk in H; done].
      pose proof (lookup_lt_Some _ _ _ Hk) as Hlt.
      step_inv H; cbn [sensors set_sensors set_data];
        rewrite ?notify_all_sensors;
        rewrite list_lookup_insert_eq by done;
        (split;
           [first [by constructor
                  | by (constructor; [apply Hown|constructor])]|]);
        intros; simplify_eq.
      unfold own_reading, density_in_range in *. cbn. lia.
    + split; [by constructor|]. intros data.
      step_inv H; cbn [sensors set_sensors set_data];
        rewrite ?notify_all_sensors;
        rewrite list_lookup_insert_ne by done; auto.
  - split; [by constructor|]. step_inv H; cbn; done.
  - split; [by constructor|].
    step_inv H; cbn; rewrite ?notify_all_sensors; done.
  - split; [by constructor|]. step_inv H; cbn; done.
Qed.

Lemma run_own sched s s' k :
  (∀ data, sensors s !! k = Some (SPush data) → own_reading k data) →
  run sched s = Some s' →
  Forall (own_reading k) (observe (pushed_by k) sched s).
Proof.
  revert s. induction sched as [|e r IH]; intros s Hown H.
  - by constructor.
  - cbn [run observe] in *. destruct (step e s) as [s1|] eqn:Hs; [|done].
    destruct (step_own e s s1 k Hown Hs) as [H1 H2].
    apply Forall_app. split; [done|]. by apply IH.
Qed.

(** A sleep ends only when its time has passed. *)
Lemma run_sleeps_out sched s s' k n :
  run sched s = Some s' →
  sensors s !! k = Some (SSleep n) →
  (n <= N.of_nat (ticks sched))%N ∨ ∃ m, sensors s' !! k = Some (SSleep m).
Proof.
  revert s n. induction sched as [|e r IH]; intros s n H Hk.
  - cbn in H. simplify_eq. right. eauto.
  - destruct n as [|p]; [left; lia|].
    cbn [run] in H. destruct (step e s) as [s1|] eqn:Hs; [|done].
    assert (Hother : sensors s1 !! k = Some (SSleep (Npos p)) →
                     (Npos p <= N.of_nat (ticks r))%N
                     ∨ ∃ m, sensors s' !! k = Some (SSleep m))
      by (intros Hk1; exact (IH s1 (Npos p) H Hk1)).
    destruct e as [|i d|c f| |]; cbn [step] in Hs; cbn [ticks].
    + simplify_eq.
      destruct (IH (tick s) (N.pred (Npos p)) H) as [Hle|Hm].
      * cbn [tick sensors]. by rewrite lookup_tick_sensor, Hk.
      * left. lia.
      * by right.
    + apply Hother. destruct (decide (i = k)) as [->|Hne].
      * unfold sensor_step in Hs. rewrite Hk in Hs. done.
      * step_inv Hs; cbn [sensors set_sensors set_data];
          rewrite ?notify_all_sensors;
          rewrite list_lookup_insert_ne by done; done.
    + apply Hother. step_inv Hs; cbn; done.
    + apply Hother. step_inv Hs; cbn; rewrite ?notify_all_sensors; done.
    + apply Hother. step_inv Hs; cbn; done.
Qed.

(** Letting the remaining time pass ends the sleep. *)
Lemma run_ticks n s :
  run (replicate n Tick) s = Some (Nat.iter n tick s).
Proof.
  revert s. induction n as [|n IH]; intros s; [done|].
  cbn [replicate run step]. rewrite IH. f_equal.
  symmetry. apply Nat.iter_succ_r.
Qed.

Lemma iter_tick_flag n s :
  shutdown_flag (Nat.iter n tick s) = shutdown_flag s.
Proof. induction n as [|n IH]; [done|]. cbn. exact IH. Qed.

Lemma iter_tick_sleep n m s k :
  sensors s !! k = Some (SSleep m) →
  sensors (Nat.iter n tick s) !! k = Some (SSleep (m - N.of_nat n)).
Proof.
  revert m. induction n as [|n IH]; intros m Hk.
  - cbn. rewrite Hk. do 2 f_equal. lia.
  - change (Nat.iter (S n) tick s) with (tick (Nat.iter n tick s)).
    cbn [tick sensors]. rewrite lookup_tick_sensor, (IH m Hk).
    cbn. do 2 f_equal. lia.
Qed.

Lemma ticks_replicate n : ticks (replicate n Tick) = n.
Proof. induction n as [|n IH]; [done|]. cbn [replicate ticks]. lia. Qed.

End Sensors.

(** ** The logger *)

Section Logger.

Implicit Types (s : State) (e : Event) (sched : list Event).

Lemma attempts_write c f os s : attempts (write c f os s) = attempts s ++ os.
Proof.
  unfold attempts, write. cbn [out set_out]. rewrite fmap_app. f_equal.
  induction os as [|o os IH]; [done|]. cbn. by rewrite IH.
Qed.

Lemma attempts_set_logger p s : attempts (set_logger p s) = attempts s.
Proof. reflexivity. Qed.

Lemma step_written e s s' :
  step e s = Some s' → attempts s' = attempts s ++ written e s.
Proof.
  intros H. destruct e as [|i d|c f| |]; cbn [step] in H.
  - simplify_eq. cbn. by rewrite app_nil_r.
  - unfold written. step_inv H; unfold attempts; cbn;
      rewrite ?notify_all_out, ?app_nil_r; done.
  - unfold written. step_inv H;
      try (unfold attempts; cbn; rewrite ?app_nil_r; done);
      by rewrite attempts_set_logger, attempts_write.
  - unfold written. step_inv H; unfold attempts; cbn;
      rewrite ?notify_all_out, ?app_nil_r; done.
  - unfold written. step_inv H; unfold attempts; cbn;
      rewrite ?app_nil_r; done.
Qed.

Lemma notify_all_logger_done s : logger s = LDone → notify_all s = s.
Proof. unfold notify_all. by intros ->. Qed.

(** Once the logger has returned, nothing is drained or written. *)
Lemma step_after_done e s s' :
  logger s = LDone → step e s = Some s' →
  logger s' = LDone ∧ drained e s = [] ∧ out s' = out s.
Proof.
  intros Hl H. destruct e as [|i d|c f| |]; cbn [step] in H.
  - simplify_eq. cbn. rewrite Hl. done.
  - unfold drained. step_inv H; cbn;
      rewrite ?notify_all_logger_done by done; done.
  - unfold drained. step_inv H; cbn; done.
  - unfold drained. step_inv H; cbn;
      rewrite ?notify_all_logger_done by done; done.
  - unfold drained. step_inv H; cbn; done.
Qed.

Lemma run_after_done sched s s' :
  logger s = LDone → run sched s = Some s' →
  logger s' = LDone ∧ observe drained sched s = [] ∧ out s' = out s.
Proof.
  revert s. induction sched as [|e r IH]; intros s Hl H.
  - cbn in *. by simplify_eq.
  - cbn [run observe] in *. destruct (step e s) as [s1|] eqn:Hs; [|done].
    destruct (step_after_done e s s1 Hl Hs) as (Hl1 & -> & <-).
    by apply IH.
Qed.

(** So whatever is in the buffer then, or arrives later, stays there. *)
Lemma run_after_done_data sched s s' :
  logger s = LDone → run sched s = Some s' →
  sensor_data s' = sensor_data s ++ observe pushed sched s.
Proof.
  intros Hl H. pose proof (run_conserves sched s s' H) as Hc.
  destruct (run_after_done sched s s' Hl H) as (_ & Hd & _).
  rewrite Hd in Hc. by rewrite Hc.
Qed.

(** A wake-up is followed by a drain and a report, flag or no flag. *)
Lemma cycle_after_wake c f s :
  logger s = LWoken ∨ logger s = LWait 0%N →
  ∃ s', run [RunLogger c f; RunLogger c f; RunLogger c f] s = Some s'
        ∧ logger s' = LCheck
        ∧ sensor_data s' = []
        ∧ attempts s' = attempts s ++ logger_report (sensor_data s)
        ∧ shutdown_flag s' = shutdown_flag s.
Proof.
  intros Hl. eexists. split.
  - cbn [run step]. unfold logger_step at 1.
    destruct Hl as [-> | ->]; cbn; reflexivity.
  - cbn [logger sensor_data shutdown_flag set_logger set_data write set_out].
    by rewrite attempts_set_logger, attempts_write.
Qed.

Lemma notify_all_report s b :
  logger (notify_all s) = LReport b → logger s = LReport b.
Proof. unfold notify_all. destruct (logger s) eqn:E; cbn; congruence. Qed.

Lemma step_sampled e s s' : sampled s → step e s = Some s' → sampled s'.
Proof.
  intros (Hb & Hp & Hr) H. destruct e as [|i d|c f| |]; cbn [step] in H.
  - simplify_eq. split; [done|]. split.
    + intros k data. cbn [tick sensors]. rewrite lookup_tick_sensor.
      destruct (sensors s !! k) as [[]|] eqn:Hk; cbn; intros; simplify_eq.
      by eapply Hp.
    + intros b. cbn. destruct (logger s); cbn; intros; simplify_eq.
      by apply Hr.
  - assert (Hins : ∀ p k data,
              (∀ data, p = SPush data → 10 <= density data <= 100) →
              <[i := p]> (sensors s) !! k = Some (SPush data) →
              10 <= density data <= 100).
    { intros p k data Hnew Hk.
      apply list_lookup_insert_Some in Hk as [(-> & -> & _)|[_ Hk]];
        [by apply Hnew|by eapply Hp]. }
    unfold sampled.
    step_inv H; cbn [sensors sensor_data logger set_sensors set_data];
      rewrite ?notify_all_sensors, ?notify_all_data;
      (split; [|split]);
      try (intros k data' Hk; eapply Hins; [|exact Hk];
           intros; simplify_eq);
      try done.
    + unfold density_in_range in *. cbn. lia.
    + unfold push_back. apply Forall_app. split; [done|].
      constructor; [|done]. by eapply Hp.
    + intros b' Hb'. by apply Hr, notify_all_report.
  - unfold sampled.
    step_inv H; cbn; (split; [|split]); try done;
      intros; simplify_eq; try done.
    by constructor.
  - unfold sampled.
    step_inv H; cbn [sensors sensor_data logger set_main set_flag];
      rewrite ?notify_all_sensors, ?notify_all_data;
      (split; [|split]); try done.
    intros b' Hb'. by apply Hr, notify_all_report.
  - unfold sampled.
    step_inv H; cbn; (split; [|split]); try done.
Qed.

Lemma run_sampled sched s s' : sampled s → run sched s = Some s' → sampled s'.
Proof.
  revert s. induction sched as [|e r IH]; intros s Hs H.
  - cbn in H. by simplify_eq.
  - cbn [run] in H. destruct (step e s) as [s1|] eqn:Hs1; [|done].
    eapply IH; [|done]. by eapply step_sampled.
Qed.

Lemma init_sampled : sampled init.
Proof.
  split; [by constructor|]. split; [|done].
  intros k data Hk. apply list_elem_of_lookup_2 in Hk.
  apply elem_of_replicate in Hk as [? _]. done.
Qed.

End Logger.

Create HintDb sbd.

Section Delivery.

Implicit Types (s : State) (e : Event) (sched : list Event).

Lemma same_but_delivery_fields s1 s2 :
  same_but_delivery s1 s2 →
  now s1 = now s2 ∧ sensor_data s1 = sensor_data s2
  ∧ shutdown_flag s1 = shutdown_flag s2 ∧ sensors s1 = sensors s2
  ∧ logger s1 = logger s2 ∧ main_pc s1 = main_pc s2.
Proof.
  destruct s1, s2. unfold same_but_delivery, set_out. cbn.
  intros [Heq _]. repeat split; congruence.
Qed.

Lemma same_but_delivery_intro s1 s2 :
  now s1 = now s2 → sensor_data s1 = sensor_data s2 →
  shutdown_flag s1 = shutdown_flag s2 → sensors s1 = sensors s2 →
  logger s1 = logger s2 → main_pc s1 = main_pc s2 →
  attempts s1 = attempts s2 →
  same_but_delivery s1 s2.
Proof.
  destruct s1, s2. unfold same_but_delivery, set_out. cbn.
  intros. split; congruence.
Qed.

Ltac same_fields H :=
  apply same_but_delivery_fields in H as (? & ? & ? & ? & ? & ?).

Lemma sbd_set_sensors l s1 s2 :
  same_but_delivery s1 s2 →
  same_but_delivery (set_sensors l s1) (set_sensors l s2).
Proof.
  intros H. pose proof H as [_ Ha]. same_fields H.
  by apply same_but_delivery_intro.
Qed.

Lemma sbd_set_data b s1 s2 :
  same_but_delivery s1 s2 →
  same_but_delivery (set_data b s1) (set_data b s2).
Proof.
  intros H. pose proof H as [_ Ha]. same_fields H.
  by apply same_but_delivery_intro.
Qed.

Lemma sbd_set_flag f s1 s2 :
  same_but_delivery s1 s2 →
  same_but_delivery (set_flag f s1) (set_flag f s2).
Proof.
  intros H. pose proof H as [_ Ha]. same_fields H.
  by apply same_but_delivery_intro.
Qed.

Lemma sbd_set_logger p s1 s2 :
  same_but_delivery s1 s2 →
  same_but_delivery (set_logger p s1) (set_logger p s2).
Proof.
  intros H. pose proof H as [_ Ha]. same_fields H.
  by apply same_but_delivery_intro.
Qed.

Lemma sbd_set_main p s1 s2 :
  same_but_delivery s1 s2 →
  same_but_delivery (set_main p s1) (set_main p s2).
Proof.
  intros H. pose proof H as [_ Ha]. same_fields H.
  by apply same_but_delivery_intro.
Qed.

Lemma sbd_notify_all s1 s2 :
  same_but_delivery s1 s2 →
  same_but_delivery (notify_all s1) (notify_all s2).
Proof.
  intros H. pose proof H as Hf. same_fields Hf. unfold notify_all.
  replace (logger s2) with (logger s1) by done.
  destruct (logger s1); try done. by apply sbd_set_logger.
Qed.

Lemma sbd_tick s1 s2 :
  same_but_delivery s1 s2 → same_but_delivery (tick s1) (tick s2).
Proof.
  intros H. pose proof H as [_ Ha]. same_fields H. unfold attempts in Ha.
  apply same_but_delivery_intro; unfold attempts; cbn; congruence.
Qed.

Lemma sbd_write c f c' f' os s1 s2 :
  same_but_delivery s1 s2 →
  same_but_delivery (write c f os s1) (write c' f' os s2).
Proof.
  intros H. pose proof H as [_ Ha]. same_fields H.
  apply same_but_delivery_intro; try done.
  by rewrite !attempts_write, Ha.
Qed.

Lemma notify_all_not_open s :
  logger s ≠ LOpen → logger (notify_all s) ≠ LOpen.
Proof. unfold notify_all. destruct (logger s) eqn:E; cbn; congruence. Qed.

#[local] Hint Resolve sbd_set_sensors sbd_set_data sbd_set_flag sbd_set_logger
  sbd_set_main sbd_notify_all sbd_tick sbd_write notify_all_not_open : sbd.

(** Whether the streams take a write has no influence on what a step
    does to the threads, the buffer and the flag. *)
Lemma step_same_but_delivery e1 e2 s1 s2 :
  logger s1 ≠ LOpen → same_but_delivery s1 s2 → same_thread e1 e2 →
  option_Forall2 (fun a b => same_but_delivery a b ∧ logger a ≠ LOpen)
                 (step e1 s1) (step e2 s2).
Proof.
  intros Hopen Hsame He.
  pose proof (same_but_delivery_fields _ _ Hsame)
    as (Hn & Hd & Hf & Hs & Hl & Hm).
  destruct e1 as [|i d|c f| |], e2 as [|i' d'|c' f'| |];
    cbn in He; simplify_eq; cbn [step].
  - constructor. split; [auto with sbd|].
    cbn. destruct (logger s1); cbn; congruence.
  - unfold sensor_step. rewrite <- Hs, <- Hf, <- Hn, <- Hd.
    repeat case_match; constructor; (split; [auto with sbd|]);
      cbn [logger set_sensors set_data]; auto with sbd.
  - unfold logger_step, swap_out. rewrite <- Hl, <- Hf, <- Hd.
    destruct (logger s1) as [| | |[|n]| | |b|] eqn:Hl1; try done;
      try (destruct (shutdown_flag s1)); constructor;
      (split; [auto with sbd|]); cbn; try congruence.
  - unfold main_step, all_joined. rewrite <- Hm, <- Hs, <- Hl.
    repeat case_match; constructor; (split; [auto with sbd|]);
      cbn [logger set_main set_flag]; auto with sbd; congruence.
  - unfold spurious_wake. rewrite <- Hl.
    repeat case_match; constructor; (split; [auto with sbd|]);
      cbn; congruence.
Qed.

Lemma run_same_but_delivery sched1 sched2 s1 s2 :
  logger s1 ≠ LOpen → same_but_delivery s1 s2 →
  Forall2 same_thread sched1 sched2 →
  option_Forall2 same_but_delivery (run sched1 s1) (run sched2 s2).
Proof.
  intros Hopen Hsame Hsched. revert s1 s2 Hopen Hsame.
  induction Hsched as [|e1 e2 r1 r2 He _ IH]; intros s1 s2 Hopen Hsame.
  - by constructor.
  - cbn [run].
    destruct (step_same_but_delivery e1 e2 s1 s2 Hopen Hsame He)
      as [a b [Hab Ha]|]; [by apply IH|constructor].
Qed.

End Delivery.

(** ** The buffer on its own *)

Section Buffer.

Lemma concat_all_nil {A} (ps : list (list A)) :
  Forall (fun p => p = []) ps → concat ps = [].
Proof. induction 1 as [|p ps -> _ IH]; [done|]. exact IH. Qed.

Lemma interleaving_perm {A} (ps : list (list A)) l :
  interleaving ps l → l ≡ₚ concat ps.
Proof.
  induction 1 as [ps Hnil|ps1 x p ps2 l _ IH].
  - by rewrite concat_all_nil.
  - rewrite concat_app in *. cbn [concat] in *. rewrite IH.
    cbn. by rewrite Permutation_middle.
Qed.

Lemma concat_length_const {A} (ps : list (list A)) (k : nat) :
  Forall (fun p => length p = k) ps →
  length (concat ps) = (length ps * k)%nat.
Proof.
  induction 1 as [|p ps Hp _ IH]; [done|].
  cbn. rewrite length_app. lia.
Qed.

(** Appending a sequence of readings one by one. *)
Lemma foldl_push_back b l : foldl push_back b l = b ++ l.
Proof.
  revert b. induction l as [|d l IH]; intros b; cbn.
  - by rewrite app_nil_r.
  - rewrite IH. unfold push_back. by rewrite <- app_assoc.
Qed.

(** The threads are created once: no step adds or removes a sensor. *)
Lemma step_sensors_length e s s' :
  step e s = Some s' → length (sensors s') = length (sensors s).
Proof.
  intros H. destruct e as [|i d|c f| |]; cbn [step] in H.
  - simplify_eq. cbn. apply length_fmap.
  - step_inv H; cbn [sensors set_sensors set_data];
      rewrite ?length_insert, ?notify_all_sensors; done.
  - step_inv H; cbn; done.
  - step_inv H; cbn; rewrite ?notify_all_sensors; done.
  - step_inv H; cbn; done.
Qed.

Lemma concat_only_one {A} (l : list A) (i a n : nat) :
  (a <= i < a + n)%nat →
  concat ((fun k => if decide (i = k) then l else []) <$> seq a n) = l.
Proof.
  revert a. induction n as [|n IH]; intros a Hi; [lia|].
  cbn [seq fmap list_fmap concat]. destruct (decide (i = a)) as [->|Hne].
  - assert (Hrest : ∀ b m, (a < b)%nat →
              concat ((fun k => if decide (a = k) then l else [])
                        <$> seq b m) = []).
    { clear. intros b m. revert b. induction m as [|m IH]; intros b Hb;
        [done|].
      cbn [seq fmap list_fmap concat]. rewrite IH by lia.
      case_decide; [lia|done]. }
    rewrite Hrest by lia. apply app_nil_r.
  - rewrite IH by lia. done.
Qed.

Lemma concat_none {A} (ks : list nat) :
  concat ((fun _ : nat => @nil A) <$> ks) = [].
Proof. induction ks as [|k ks IH]; [done|]. exact IH. Qed.

(** What a step appends is what its sensor appends. *)
Lemma pushed_by_sensor e s :
  pushed e s =
    concat ((fun k => pushed_by k e s) <$> seq 0 (length (sensors s))).
Proof.
  destruct e as [|i d|c f| |]; cbn [pushed pushed_by];
    try (by rewrite concat_none).
  destruct (sensors s !! i) as [p|] eqn:Hi.
  - pose proof (lookup_lt_Some _ _ _ Hi) as Hlt.
    symmetry. apply concat_only_one. lia.
  - induction (seq 0 (length (sensors s))) as [|k ks IH]; [done|].
    cbn [fmap list_fmap concat]. rewrite <- IH. by case_decide.
Qed.

Lemma concat_fmap_app {A} (f g : nat → list A) (ks : list nat) :
  concat ((fun k => f k ++ g k) <$> ks)
  ≡ₚ concat (f <$> ks) ++ concat (g <$> ks).
Proof.
  induction ks as [|k ks IH]; [done|].
  cbn [fmap list_fmap concat]. rewrite IH, <- !app_assoc.
  apply Permutation_app_head. rewrite !app_assoc.
  apply Permutation_app_tail, Permutation_app_comm.
Qed.

(** What a run appends is, up to order, what its sensors append. *)
Lemma run_pushed_by_sensor sched s s' :
  run sched s = Some s' →
  observe pushed sched s
  ≡ₚ concat ((fun k => observe (pushed_by k) sched s)
               <$> seq 0 (length (sensors s))).
Proof.
  revert s. induction sched as [|e r IH]; intros s Hrun.
  - cbn [observe]. by rewrite concat_none.
  - cbn [run observe] in *. destruct (step e s) as [s1|] eqn:Hs; [|done].
    rewrite concat_fmap_app, <- pushed_by_sensor.
    apply Permutation_app_head.
    rewrite <- (step_sensors_length e s s1 Hs). by apply IH.
Qed.

Lemma concat_fmap_length_const {A} (f : nat → list A) (ks : list nat) K :
  (∀ k, k ∈ ks → length (f k) = K) →
  length (concat (f <$> ks)) = (length ks * K)%nat.
Proof.
  induction ks as [|k ks IH]; intros Hlen; [done|].
  cbn [fmap list_fmap concat length]. rewrite length_app.
  rewrite Hlen by (apply elem_of_cons; by left).
  rewrite IH; [lia|]. intros k' Hk'. apply Hlen, elem_of_cons. by right.
Qed.

End Buffer.

(** * Main theorems *)

Lemma logger_report_nonempty batch :
  batch ≠ [] →
  logger_report batch =
    alerts_for batch ++
    [LogLine (average (for_each batch acc0).1 batch)
             (min_val (for_each batch acc0).1)
             (max_val (for_each batch acc0).1)].
Proof.
  destruct batch as [|d l]; [done|]. intros _.
  by rewrite logger_report_cons, for_each_alerts.
Qed.


Lemma wrap_int_range z : - 2 ^ 31 <= wrap_int z < 2 ^ 31.
Proof.
  unfold wrap_int.
  pose proof (Z.mod_pos_bound (z + 2 ^ 31) (2 ^ 32)). lia.
Qed.

Lemma wrap_int_add_l x y : wrap_int (wrap_int x + y) = wrap_int (x + y).
Proof.
  unfold wrap_int. f_equal.
  replace ((x + 2 ^ 31) `mod` 2 ^ 32 - 2 ^ 31 + y + 2 ^ 31)
    with ((x + 2 ^ 31) `mod` 2 ^ 32 + y) by lia.
  rewrite Zplus_mod_idemp_l. f_equal. lia.
Qed.

(** Whatever the batch, [total] is its sum reduced to an [int]. *)
Lemma for_each_total_wrap (l : list TrafficData) (a : Acc) :
  wrap_int (total a) = total a →
  total (for_each l a).1 = wrap_int (total a + sum_density l).
Proof.
  revert a. induction l as [|d l IH]; intros a Ha.
  - cbn. by rewrite Z.add_0_r.
  - rewrite for_each_cons. cbn [fst]. rewrite IH.
    + cbn [accumulate total sum_density foldr]. fold (sum_density l).
      rewrite wrap_int_add_l. f_equal. lia.
    + cbn [accumulate total]. apply wrap_int_id, wrap_int_range.
Qed.

Lemma sum_density_replicate (n : nat) (d : TrafficData) :
  sum_density (replicate n d) = density d * Z.of_nat n.
Proof.
  induction n as [|n IH]; [cbn; lia|].
  cbn [replicate sum_density foldr]. fold (sum_density (replicate n d)).
  rewrite IH. lia.
Qed.

Lemma replicate_nonempty {A} (n : nat) (x : A) :
  n ≠ 0%nat → replicate n x ≠ [].
Proof. by destruct n. Qed.

Lemma density_replicate (n : nat) (d : TrafficData) :
  n ≠ 0%nat →
  is_least (density d) (density <$> replicate n d)
  ∧ is_greatest (density d) (density <$> replicate n d).
Proof.
  intros Hn.
  assert (Hin : density d ∈ density <$> replicate n d).
  { apply list_elem_of_fmap. exists d. split; [done|].
    apply elem_of_replicate. done. }
  assert (Hall : ∀ x, x ∈ density <$> replicate n d → x = density d).
  { intros x Hx. apply list_elem_of_fmap in Hx as (e & -> & He).
    apply elem_of_replicate in He as [-> _]. done. }
  split; (split; [done|]); intros x Hx; rewrite (Hall x Hx); lia.
Qed.

(** The line written for [n] readings of the same density. *)
Lemma logger_report_replicate (n : nat) (d : TrafficData) :
  n ≠ 0%nat →
  logger_report (replicate n d) =
    alerts_for (replicate n d) ++
    [LogLine (wrap_int (Z.quot (wrap_int (density d * Z.of_nat n))
                               (wrap_int (Z.of_nat n))))
             (Z.min 100 (density d)) (Z.max 0 (density d))].
Proof.
  intros Hn. destruct (density_replicate n d Hn) as [Hmn Hmx].
  rewrite logger_report_nonempty by by apply replicate_nonempty.
  rewrite (for_each_min _ acc0 _ Hmn), (for_each_max _ acc0 _ Hmx).
  unfold average, size_as_int.
  rewrite for_each_total_wrap by done.
  rewrite length_replicate, sum_density_replicate. done.
Qed.

Lemma average_exact_fits batch :
  within_0_100 batch → batch ≠ [] →
  Z.of_nat (length batch) <= INT_MAX →
  sum_density batch <= INT_MAX →
  size_as_int batch = Z.of_nat (length batch)
  ∧ average (for_each batch acc0).1 batch =
      Z.quot (sum_density batch) (Z.of_nat (length batch)).
Proof.
  intros Hr Hne Hlen Hsum. unfold INT_MAX in *.
  assert (Hpos : 0 < Z.of_nat (length batch)).
  { destruct batch; [done|]. cbn [length]. lia. }
  assert (Hsz : size_as_int batch = Z.of_nat (length batch)).
  { unfold size_as_int. apply wrap_int_id. lia. }
  split; [done|]. unfold average.
  pose proof (sum_density_bounds batch Hr) as [Hs0 _].
  rewrite Hsz, for_each_total_wrap by done.
  cbn [total acc0]. rewrite Z.add_0_l, (wrap_int_id (sum_density batch)) by lia.
  apply wrap_int_id.
  rewrite Z.quot_div_nonneg by lia.
  pose proof (Z.div_pos (sum_density batch) (Z.of_nat (length batch))).
  assert (sum_density batch `div` Z.of_nat (length batch)
          <= sum_density batch).
  { apply Z.div_le_upper_bound; nia. }
  lia.
Qed.

(** C1 as stated fails, in three ways.  For a batch with the one density
    150 the minimum written is 100, the value the accumulator starts with,
    not 150.  For 21474837 readings of density 100 the sum, 2147483700,
    does not fit an [int]: the average written is -99, not 100.  For 2^32
    readings of density 0 the count does not fit an [int]: the divisor is
    0, not 2^32. *)
Lemma C1_counterexample :
  (is_least 150 (density <$> [mkTrafficData 0 150 0%N])
   ∧ logger_report [mkTrafficData 0 150 0%N]
     = [Alert 0 150; LogLine 150 100 150])
  ∧ (let b := replicate (Z.to_nat 21474837) (mkTrafficData 0 100 0%N) in
     within_0_100 b
     ∧ Z.of_nat (length b) = 21474837
     ∧ sum_density b = 2147483700
     ∧ Z.quot (sum_density b) (Z.of_nat (length b)) = 100
     ∧ logger_report b = alerts_for b ++ [LogLine (-99) 100 100])
  ∧ (let b := replicate (Z.to_nat 4294967296) (mkTrafficData 0 0 0%N) in
     within_0_100 b
     ∧ sum_density b = 0
     ∧ Z.of_nat (length b) = 4294967296
     ∧ size_as_int b = 0).
Proof.
  split; [|split].
  - split; [|reflexivity].
    change (density <$> [mkTrafficData 0 150 0%N]) with [150]. split.
    + apply list_elem_of_singleton. reflexivity.
    + intros x Hx. apply list_elem_of_singleton in Hx. lia.
  - intros b. subst b.
    assert (Hn : Z.of_nat (Z.to_nat 21474837) = 21474837) by lia.
    split; [|split; [|split; [|split]]].
    + apply Forall_replicate. cbn. lia.
    + by rewrite length_replicate.
    + rewrite sum_density_replicate, Hn. reflexivity.
    + rewrite sum_density_replicate, length_replicate, Hn. reflexivity.
    + rewrite logger_report_replicate by lia. rewrite Hn. reflexivity.
  - intros b. subst b.
    assert (Hn : Z.of_nat (Z.to_nat 4294967296) = 4294967296) by lia.
    split; [|split; [|split]].
    + apply Forall_replicate. cbn. lia.
    + rewrite sum_density_replicate. cbn [density]. lia.
    + by rewrite length_replicate.
    + unfold size_as_int. rewrite length_replicate, Hn. reflexivity.
Qed.

(** C1 amended: for every non-empty batch whose densities all lie in
    [0, 100] and whose count and sum fit an [int], the count is the number
    of readings, the average is the sum divided by the count with
    truncation, the minimum and maximum written are the least and greatest
    density of the batch; the densities 10, 50, 90 give count 3, average
    50, minimum 10, maximum 90.  The densities of every batch the logger
    drains in a run of the program lie in [10, 100]. *)
Theorem C1_summary_of_batch_within_0_100 batch :
  batch ≠ [] →
  within_0_100 batch →
  Z.of_nat (length batch) <= INT_MAX →
  sum_density batch <= INT_MAX →
  (∃ mn mx,
      is_least mn (density <$> batch)
      ∧ is_greatest mx (density <$> batch)
      ∧ size_as_int batch = Z.of_nat (length batch)
      ∧ logger_report batch =
          alerts_for batch ++
          [LogLine (Z.quot (sum_density batch) (Z.of_nat (length batch)))
                   mn mx])
  ∧ (∀ i1 i2 i3 t1 t2 t3,
        let b := [mkTrafficData i1 10 t1; mkTrafficData i2 50 t2;
                  mkTrafficData i3 90 t3] in
        size_as_int b = 3
        ∧ logger_report b = [Alert i3 90; LogLine 50 10 90])
  ∧ (∀ sched s b,
        run sched init = Some s → logger s = LReport b →
        readings_in_range b ∧ within_0_100 b).
Proof.
  intros Hne Hr Hlen Hsum. split; [|split; [by intros|]].
  - assert (Hv : density <$> batch ≠ []) by by destruct batch.
    destruct (least_exists _ Hv) as (mn & Hmn).
    destruct (greatest_exists _ Hv) as (mx & Hmx).
    destruct (average_exact_fits batch Hr Hne Hlen Hsum) as [Hsz Havg].
    exists mn, mx. do 3 (split; [done|]).
    rewrite logger_report_nonempty, Havg by done.
    rewrite (for_each_min batch acc0 mn Hmn), (for_each_max batch acc0 mx Hmx).
    cbn [min_val max_val acc0].
    assert (0 <= mn <= 100 ∧ 0 <= mx <= 100) as [? ?].
    { destruct Hmn as [Hmn _], Hmx as [Hmx _].
      apply list_elem_of_fmap in Hmn as (d1 & -> & H1).
      apply list_elem_of_fmap in Hmx as (d2 & -> & H2).
      unfold within_0_100 in Hr. rewrite Forall_forall in Hr.
      split; by apply Hr. }
    do 3 f_equal; lia.
  - intros sched s b Hrun Hl.
    pose proof (run_sampled sched init s init_sampled Hrun) as (_ & _ & Hb).
    split; [by apply Hb|by apply readings_in_range_within, Hb].
Qed.

Lemma C1_summary_of_batch_within_0_100_witness :
  ∃ mn mx,
    is_least mn (density <$> [mkTrafficData 0 10 0%N; mkTrafficData 1 50 7%N;
                              mkTrafficData 2 90 9%N])
    ∧ is_greatest mx (density <$> [mkTrafficData 0 10 0%N;
                                   mkTrafficData 1 50 7%N;
                                   mkTrafficData 2 90 9%N])
    ∧ size_as_int [mkTrafficData 0 10 0%N; mkTrafficData 1 50 7%N;
                   mkTrafficData 2 90 9%N] = 3
    ∧ logger_report [mkTrafficData 0 10 0%N; mkTrafficData 1 50 7%N;
                     mkTrafficData 2 90 9%N] =
        alerts_for [mkTrafficData 0 10 0%N; mkTrafficData 1 50 7%N;
                    mkTrafficData 2 90 9%N] ++
        [LogLine (Z.quot 150 3) mn mx].
Proof.
  refine (proj1 (C1_summary_of_batch_within_0_100
                   [mkTrafficData 0 10 0%N; mkTrafficData 1 50 7%N;
                    mkTrafficData 2 90 9%N] _ _ _ _)).
  - discriminate.
  - repeat constructor; cbn; lia.
  - vm_compute. discriminate.
  - vm_compute. discriminate.
Defined.

(** C5: the alert lines of a cycle are exactly one per reading whose
    density is above 80, each with that reading's sensor id and density and
    in the order of the batch; readings at or below 80 give none; the
    summary line, if any, comes after all of them; and the report step
    writes exactly these lines. *)
Theorem C5_alerts_before_summary s c f batch :
  logger s = LReport batch →
  (∃ summary,
      logger_report batch = alerts_for batch ++ summary
      ∧ (batch = [] → summary = [])
      ∧ (batch ≠ [] → ∃ a mn mx, summary = [LogLine a mn mx]))
  ∧ (∃ s', step (RunLogger c f) s = Some s'
           ∧ attempts s' = attempts s ++ logger_report batch)
  ∧ (∀ d, d ∈ batch →
          (80 < density d → Alert (sensor_id d) (density d) ∈ alerts_for batch)
          ∧ (density d <= 80 → alert_of d = []))
  ∧ length (alerts_for batch) = length (filter congested batch).
Proof.
  intros Hl. split; [|split; [|split]].
  - destruct batch as [|d l].
    + exists []. by split.
    + eexists. split; [by apply logger_report_nonempty|].
      split; [done|]. intros _. eauto.
  - eexists. split; [cbn; unfold logger_step; rewrite Hl; reflexivity|].
    by rewrite attempts_set_logger, attempts_write.
  - intros d Hd. split.
    + intros Hc. unfold alerts_for.
      apply list_elem_of_fmap. exists d. split; [done|].
      apply list_elem_of_filter. by split.
    + intros Hle. rewrite alert_of_filter. unfold congested.
      case_decide; [unfold CONGESTION_THRESHOLD in *; lia|done].
  - unfold alerts_for. by rewrite length_fmap.
Qed.

Lemma C5_alerts_before_summary_witness :
  ∃ s', step (RunLogger true true)
          (set_logger (LReport [mkTrafficData 0 90 1500%N]) init) = Some s'
        ∧ attempts s' = [Alert 0 90; LogLine 90 90 90].
Proof.
  destruct (C5_alerts_before_summary
              (set_logger (LReport [mkTrafficData 0 90 1500%N]) init)
              true true [mkTrafficData 0 90 1500%N] eq_refl)
    as (_ & (s' & Hs' & Ha) & _).
  exists s'. split; [exact Hs'|]. rewrite Ha. reflexivity.
Defined.

(** C6: a cycle whose drain returns nothing writes nothing: the report is
    empty, the step leaves the streams as they were and puts the logger
    back at the top of its loop, from where, the flag unset, it waits. *)
Theorem C6_empty_cycle s c f :
  logger s = LReport [] →
  logger_report [] = []
  ∧ written (RunLogger c f) s = []
  ∧ ∃ s', step (RunLogger c f) s = Some s'
          ∧ out s' = out s
          ∧ logger s' = LCheck
          ∧ (shutdown_flag s = false →
             ∃ s'', run [RunLogger c f; RunLogger c f] s' = Some s''
                    ∧ logger s'' = LWait AGGREGATION_INTERVAL
                    ∧ out s'' = out s).
Proof.
  intros Hl. split; [done|]. split; [unfold written; rewrite Hl; by destruct f|].
  eexists. split; [cbn; unfold logger_step; rewrite Hl; reflexivity|].
  split; [cbn; apply app_nil_r|]. split; [done|].
  intros Hf. eexists. split.
  - cbn [run step]. unfold logger_step at 1.
    cbn [logger shutdown_flag set_logger write set_out]. rewrite Hf.
    reflexivity.
  - split; [done|]. cbn. apply app_nil_r.
Qed.

Lemma C6_empty_cycle_witness :
  ∃ s', step (RunLogger true true) (set_logger (LReport []) init) = Some s'
        ∧ out s' = [] ∧ logger s' = LCheck.
Proof.
  destruct (C6_empty_cycle (set_logger (LReport []) init) true true eq_refl)
    as (_ & _ & s' & Hs' & Ho & Hl & _).
  exists s'. split; [exact Hs'|]. split; [exact Ho|exact Hl].
Defined.

(** C9: for a non-empty batch the minimum written is the smaller of 100 and
    the least density, the maximum written is the larger of 0 and the
    greatest density; both are exact when all densities lie in [0, 100],
    and they stay at 100 and at 0 when all densities lie above 100 or below
    0. *)
Theorem C9_extremes_start_at_100_and_0 batch mn mx :
  batch ≠ [] →
  is_least mn (density <$> batch) →
  is_greatest mx (density <$> batch) →
  ∃ avg,
    logger_report batch =
      alerts_for batch ++ [LogLine avg (Z.min 100 mn) (Z.max 0 mx)]
    ∧ (Forall (fun d => 0 <= density d <= 100) batch →
       logger_report batch = alerts_for batch ++ [LogLine avg mn mx])
    ∧ (100 < mn →
       logger_report batch =
         alerts_for batch ++ [LogLine avg 100 (Z.max 0 mx)])
    ∧ (mx < 0 →
       logger_report batch =
         alerts_for batch ++ [LogLine avg (Z.min 100 mn) 0]).
Proof.
  intros Hne Hmn Hmx. eexists.
  assert (Hrep : logger_report batch =
            alerts_for batch ++
            [LogLine (average (for_each batch acc0).1 batch)
                     (Z.min 100 mn) (Z.max 0 mx)]).
  { rewrite logger_report_nonempty by done.
    by rewrite (for_each_min batch acc0 mn Hmn),
      (for_each_max batch acc0 mx Hmx). }
  split; [exact Hrep|]. split; [|split].
  - intros Hall. rewrite Hrep. rewrite Forall_forall in Hall.
    destruct Hmn as [Hmn _], Hmx as [Hmx _].
    apply list_elem_of_fmap in Hmn as (d1 & -> & H1).
    apply list_elem_of_fmap in Hmx as (d2 & -> & H2).
    pose proof (Hall d1 H1). pose proof (Hall d2 H2).
    do 3 f_equal; lia.
  - intros Hbig. rewrite Hrep. do 3 f_equal. lia.
  - intros Hneg. rewrite Hrep. do 3 f_equal. lia.
Qed.

Lemma C9_extremes_start_at_100_and_0_witness :
  ∃ avg, logger_report [mkTrafficData 0 150 0%N] =
           alerts_for [mkTrafficData 0 150 0%N] ++ [LogLine avg 100 150].
Proof.
  assert (Hmn : is_least 150 [150]).
  { split; [apply list_elem_of_singleton; reflexivity|].
    intros x Hx. apply list_elem_of_singleton in Hx. lia. }
  assert (Hmx : is_greatest 150 [150]).
  { split; [apply list_elem_of_singleton; reflexivity|].
    intros x Hx. apply list_elem_of_singleton in Hx. lia. }
  destruct (C9_extremes_start_at_100_and_0 [mkTrafficData 0 150 0%N] 150 150
              ltac:(discriminate) Hmn Hmx) as (avg & Hrep & _).
  exists avg. exact Hrep.
Defined.

Lemma set_flag_same s : shutdown_flag s = true → set_flag true s = s.
Proof. destruct s. cbn. by intros ->. Qed.

Lemma notify_all_idem s : notify_all (notify_all s) = notify_all s.
Proof. unfold notify_all. by destruct (logger s) eqn:E; cbn; rewrite ?E. Qed.

(** C8 as stated fails: in the state the run [missed_stop_run] reaches the
    flag is set and the logger waits; running lines 111 and 112 again is
    no no-op there: it wakes the logger. *)
Lemma C8_counterexample :
  ∃ s0, run missed_stop_run init = Some s0
        ∧ shutdown_flag s0 = true
        ∧ logger s0 = LWait AGGREGATION_INTERVAL
        ∧ logger (signal_stop s0) = LWoken
        ∧ signal_stop s0 ≠ s0.
Proof.
  eexists. split; [vm_compute; reflexivity|].
  do 3 (split; [reflexivity|]). discriminate.
Qed.

(** C8 amended: the flag starts false; no step of any thread turns it back
    to false, so along every run it turns to true at most once; the main
    thread runs lines 111 and 112 once.  Running them again leaves the flag
    set and changes nothing but this: a logger that waits at that moment is
    woken.  So a repeat changes nothing when no logger waits, as is the
    case right after the first time. *)
Theorem C8_stop_signal_one_way e s s' :
  step e s = Some s' →
  shutdown_flag s = true →
  shutdown_flag s' = true
  ∧ shutdown_flag init = false
  ∧ (∀ sched s0 s1, run sched s0 = Some s1 → shutdown_flag s0 = true →
                    shutdown_flag s1 = true)
  ∧ (∀ sched s0, (length (observe raised sched s0) <= 1)%nat)
  ∧ (∀ s0, shutdown_flag (signal_stop s0) = true
           ∧ signal_stop (signal_stop s0) = signal_stop s0)
  ∧ (∀ s0, shutdown_flag s0 = true → (∀ n, logger s0 ≠ LWait n) →
           signal_stop s0 = s0)
  ∧ (∀ s0, shutdown_flag s0 = true →
           signal_stop s0 = notify_all s0
           ∧ signal_stop s0 = match logger s0 with
                              | LWait _ => set_logger LWoken s0
                              | _ => s0
                              end)
  ∧ (∀ s0, main_pc s0 = MSleep 0%N →
           run [RunMain; RunMain] s0 = Some (set_main MJoin (signal_stop s0)))
  ∧ (∀ s0, main_pc s0 = MJoin ∨ main_pc s0 = MDone →
           ∀ sched s1, run sched s0 = Some s1 →
                       main_pc s1 = MJoin ∨ main_pc s1 = MDone).
Proof.
  intros Hs Hf. split; [by eapply step_flag_stays|]. split; [done|].
  split; [intros; by eapply run_flag_stays|].
  split; [apply raised_le_1|]. split; [|split; [|split; [|split]]].
  - intros s0. unfold signal_stop. split.
    + by rewrite notify_all_flag.
    + rewrite set_flag_same by by rewrite notify_all_flag.
      apply notify_all_idem.
  - intros s0 Hf0 Hw. unfold signal_stop. rewrite set_flag_same by done.
    unfold notify_all. destruct (logger s0) eqn:Hl0; try done.
    by destruct (Hw remaining).
  - intros s0 Hf0. unfold signal_stop. rewrite set_flag_same by done.
    split; [done|]. unfold notify_all. by destruct (logger s0).
  - intros s0 Hm. cbn [run step]. unfold main_step at 1. rewrite Hm.
    unfold main_step. cbn [main_pc set_main]. f_equal.
    unfold signal_stop, notify_all. cbn. destruct (logger s0); reflexivity.
  - intros s0 Hm sched. revert s0 Hm.
    induction sched as [|e0 r IH]; intros s0 Hm s1 Hrun.
    + cbn in Hrun. by simplify_eq.
    + cbn [run] in Hrun. destruct (step e0 s0) as [s2|] eqn:Hs2; [|done].
      apply (IH s2); [|done].
      destruct e0 as [|i d|c f| |]; cbn [step] in Hs2.
      * simplify_eq. cbn. by destruct Hm as [-> | ->]; cbn; auto.
      * step_inv Hs2; cbn; rewrite ?notify_all_main; done.
      * step_inv Hs2; cbn; done.
      * destruct Hm as [Hm|Hm]; unfold main_step in Hs2; rewrite Hm in Hs2;
          [|done]. case_match; simplify_eq. cbn. by right.
      * step_inv Hs2; cbn; done.
Qed.

Lemma C8_stop_signal_one_way_witness :
  shutdown_flag (tick (signal_stop init)) = true.
Proof.
  exact (proj1 (C8_stop_signal_one_way Tick (signal_stop init)
                  (tick (signal_stop init)) eq_refl eq_refl)).
Defined.

Lemma stop_then_append_run :
  run stop_then_append init = Some stop_then_append_end.
Proof. vm_compute. reflexivity. Qed.

(** C2 as stated fails: in the run [stop_then_append] sensor 0 appends a
    reading that no drain returns, however the run goes on: the only drain
    of the run came before it, and the logger has returned. *)
Lemma C2_counterexample :
  observe pushed stop_then_append init = [mkTrafficData 0 42 60000%N]
  ∧ ∀ sched s',
      run (stop_then_append ++ sched) init = Some s' →
      concat (observe drained (stop_then_append ++ sched) init) = []
      ∧ mkTrafficData 0 42 60000%N ∈ sensor_data s'.
Proof.
  split; [vm_compute; reflexivity|].
  intros sched s' Hrun.
  rewrite (run_app stop_then_append sched init) in Hrun.
  rewrite stop_then_append_run in Hrun.
  change (run sched stop_then_append_end = Some s') in Hrun.
  rewrite (observe_app drained stop_then_append sched init
             stop_then_append_end stop_then_append_run).
  destruct (run_after_done sched stop_then_append_end s' eq_refl Hrun)
    as (_ & Hd & _).
  pose proof (run_after_done_data sched stop_then_append_end s' eq_refl Hrun)
    as Hb.
  rewrite Hd, app_nil_r. split; [vm_compute; reflexivity|].
  rewrite Hb. apply elem_of_app. left. apply list_elem_of_singleton.
  reflexivity.
Qed.

(** C2 amended: a reading is returned by at most one drain.  A run neither
    loses nor duplicates a reading: what was in the buffer and what the
    sensors appended is, in order, what the drains returned followed by
    what the buffer still holds.  An append puts the reading at the end of
    the buffer, where it stays as long as no drain follows; a drain returns
    the whole buffer and leaves it empty.  When the N sensors append K
    readings each to the empty buffer with no drain in between, in any
    interleaving, the buffer a drain then returns holds exactly these N * K
    readings (the same for any N sequences of K readings appended to a
    buffer). *)
Theorem C2_buffer_conservation sched s s' :
  run sched s = Some s' →
  sensor_data s ++ observe pushed sched s =
    concat (observe drained sched s) ++ sensor_data s'
  ∧ (observe drained sched s = [] →
     sensor_data s' = sensor_data s ++ observe pushed sched s)
  ∧ (∀ s0 k d r,
        sensors s0 !! k = Some (SPush r) →
        pushed (RunSensor k d) s0 = [r]
        ∧ ∃ s1, step (RunSensor k d) s0 = Some s1
                ∧ sensor_data s1 = sensor_data s0 ++ [r])
  ∧ (∀ s0 c f,
        logger s0 = LDrain →
        drained (RunLogger c f) s0 = [sensor_data s0]
        ∧ step (RunLogger c f) s0 =
            Some (set_logger (LReport (sensor_data s0)) (set_data [] s0)))
  ∧ (∀ K,
        sensor_data s = [] →
        observe drained sched s = [] →
        (∀ k, (k < length (sensors s))%nat →
              length (observe (pushed_by k) sched s) = K) →
        sensor_data s'
        ≡ₚ concat ((fun k => observe (pushed_by k) sched s)
                     <$> seq 0 (length (sensors s)))
        ∧ length (sensor_data s') = (length (sensors s) * K)%nat
        ∧ swap_out (sensor_data s') = (sensor_data s', []))
  ∧ (∀ (ps : list (list TrafficData)) order K,
        interleaving ps order →
        Forall (fun p => length p = K) ps →
        swap_out (foldl push_back [] order) = (order, [])
        ∧ order ≡ₚ concat ps
        ∧ length order = (length ps * K)%nat).
Proof.
  intros Hrun. pose proof (run_conserves sched s s' Hrun) as Hc.
  split; [exact Hc|]. split; [|split; [|split; [|split]]].
  - intros Hd. rewrite Hd in Hc. by rewrite Hc.
  - intros s0 k d r Hk. cbn [pushed step]. unfold sensor_step.
    rewrite Hk. split; [done|]. eexists. split; [reflexivity|done].
  - intros s0 c f Hl. unfold drained. cbn [step]. unfold logger_step.
    by rewrite Hl.
  - intros K Hempty Hd Hlen. rewrite Hempty, Hd in Hc. cbn in Hc.
    pose proof (run_pushed_by_sensor sched s s' Hrun) as Hp.
    rewrite Hc in Hp. split; [done|]. split; [|done].
    rewrite Hp, (concat_fmap_length_const _ _ K), length_seq; [done|].
    intros k Hk. apply Hlen. apply elem_of_seq in Hk. lia.
  - intros ps order K Hint Hlen.
    pose proof (interleaving_perm ps order Hint) as Hp.
    split; [by rewrite foldl_push_back|]. split; [done|].
    by rewrite Hp, (concat_length_const ps K).
Qed.

Lemma C2_buffer_conservation_witness :
  ∃ s', run one_reading_run init = Some s'
        ∧ sensor_data init ++ observe pushed one_reading_run init =
            concat (observe drained one_reading_run init) ++ sensor_data s'.
Proof.
  eexists. split; [vm_compute; reflexivity|].
  match goal with
  | |- _ = _ ++ sensor_data ?s' =>
      exact (proj1 (C2_buffer_conservation one_reading_run init s'
                      ltac:(vm_compute; reflexivity)))
  end.
Defined.

(** The logger's way out of a wake-up once the flag is set. *)
Lemma woken_logger_leaves c f s :
  logger s = LWoken → shutdown_flag s = true →
  ∃ s', run (replicate 4 (RunLogger c f)) s = Some s' ∧ logger s' = LDone.
Proof.
  intros Hl Hf. eexists. split.
  - cbn [replicate run step]. unfold logger_step at 1. rewrite Hl.
    cbn. rewrite Hf. reflexivity.
  - reflexivity.
Qed.

Lemma signal_stop_wakes s n : logger s = LWait n → logger (signal_stop s) = LWoken.
Proof. intros Hl. unfold signal_stop, notify_all. cbn. by rewrite Hl. Qed.

(** C3 as stated fails: in the run [stop_then_append] the logger is woken
    by the stop, finds the flag set at the top of its loop while a reading
    is in the buffer, and returns; the reading is never drained and nothing
    is ever written. *)
Lemma C3_counterexample :
  ∃ s0, run stop_then_append init = Some s0
        ∧ shutdown_flag s0 = true
        ∧ logger s0 = LDone
        ∧ sensor_data s0 = [mkTrafficData 0 42 60000%N]
        ∧ ∀ sched s', run sched s0 = Some s' →
                      mkTrafficData 0 42 60000%N ∈ sensor_data s'
                      ∧ observe drained sched s0 = []
                      ∧ out s' = [].
Proof.
  eexists. split; [vm_compute; reflexivity|].
  do 3 (split; [reflexivity|]).
  intros sched s' Hrun.
  match type of Hrun with run _ ?s0 = _ =>
    destruct (run_after_done sched s0 s' eq_refl Hrun) as (_ & Hd & Ho);
    pose proof (run_after_done_data sched s0 s' eq_refl Hrun) as Hb
  end.
  split; [|split; [exact Hd|exact Ho]].
  rewrite Hb. apply elem_of_app. left. apply list_elem_of_singleton.
  reflexivity.
Qed.

(** Away from line 65 a logger step does not read the flag. *)
Lemma logger_step_flag_blind c f b s :
  logger s ≠ LCheck →
  logger_step c f (set_flag b s) = set_flag b <$> logger_step c f s.
Proof.
  intros Hpc. unfold logger_step, swap_out. cbn [logger set_flag].
  destruct (logger s) as [| | |[|n]| | |l|]; try done.
  by destruct f.
Qed.

Lemma spurious_wake_flag_blind b s :
  spurious_wake (set_flag b s) = set_flag b <$> spurious_wake s.
Proof. unfold spurious_wake. cbn [logger set_flag]. by destruct (logger s). Qed.

(** C3 amended: the logger reads the flag only at the top of its loop: at
    every other program point its step, and its being woken, are the same
    whatever the flag is.  When it finds the flag set there it returns
    without draining (and goes on to wait when it finds it unset); from
    then on nothing is drained or written, and what is appended stays in
    the buffer.  It does not read the flag on waking: every wake-up, that
    of the stop included, is followed by a drain of the whole buffer and a
    report. *)
Theorem C3_stop_seen_only_at_loop_top s c f :
  logger s = LCheck →
  shutdown_flag s = true →
  step (RunLogger c f) s = Some (set_logger LDone s)
  ∧ (∀ sched s0 s1,
        logger s0 = LDone → run sched s0 = Some s1 →
        logger s1 = LDone
        ∧ observe drained sched s0 = []
        ∧ out s1 = out s0
        ∧ sensor_data s1 = sensor_data s0 ++ observe pushed sched s0)
  ∧ (∀ s0 c0 f0,
        logger s0 = LWoken ∨ logger s0 = LWait 0%N →
        ∃ s1, run [RunLogger c0 f0; RunLogger c0 f0; RunLogger c0 f0] s0
              = Some s1
              ∧ logger s1 = LCheck
              ∧ sensor_data s1 = []
              ∧ attempts s1 = attempts s0 ++ logger_report (sensor_data s0)
              ∧ shutdown_flag s1 = shutdown_flag s0)
  ∧ (∀ s0 n, logger s0 = LWait n → logger (signal_stop s0) = LWoken)
  ∧ (∀ s0 c0 f0 b,
        logger s0 ≠ LCheck →
        step (RunLogger c0 f0) (set_flag b s0)
        = set_flag b <$> step (RunLogger c0 f0) s0)
  ∧ (∀ s0 b,
        step SpuriousWake (set_flag b s0) = set_flag b <$> step SpuriousWake s0
        ∧ notify_all (set_flag b s0) = set_flag b (notify_all s0))
  ∧ (∀ s0 c0 f0,
        logger s0 = LCheck →
        step (RunLogger c0 f0) s0
        = Some (set_logger (if shutdown_flag s0 then LDone else LLock) s0)).
Proof.
  intros Hl Hf. split; [|split; [|split; [|split; [|split; [|split]]]]].
  - cbn [step]. unfold logger_step. by rewrite Hl, Hf.
  - intros sched s0 s1 Hd Hrun.
    destruct (run_after_done sched s0 s1 Hd Hrun) as (H1 & H2 & H3).
    do 3 (split; [done|]). by apply run_after_done_data.
  - intros s0 c0 f0. apply cycle_after_wake.
  - apply signal_stop_wakes.
  - intros s0 c0 f0 b. cbn [step]. apply logger_step_flag_blind.
  - intros s0 b. split; [apply spurious_wake_flag_blind|].
    apply set_flag_notify_all.
  - intros s0 c0 f0 Hl0. cbn [step]. unfold logger_step. rewrite Hl0.
    by destruct (shutdown_flag s0).
Qed.

Lemma C3_stop_seen_only_at_loop_top_witness :
  step (RunLogger true true)
       (set_logger LCheck
          (set_data [mkTrafficData 0 42 60000%N] (set_flag true init)))
  = Some (set_logger LDone
            (set_logger LCheck
               (set_data [mkTrafficData 0 42 60000%N] (set_flag true init)))).
Proof.
  exact (proj1 (C3_stop_seen_only_at_loop_top
                  (set_logger LCheck
                     (set_data [mkTrafficData 0 42 60000%N]
                        (set_flag true init)))
                  true true eq_refl eq_refl)).
Defined.

(** C4 as stated fails: after the run [stop_during_sleep] the flag is set
    and the waiters have been notified, yet sensor 0 cannot leave before
    its whole sleep of 1500 ms has passed. *)
Lemma C4_counterexample :
  ∃ s0, run stop_during_sleep init = Some s0
        ∧ shutdown_flag s0 = true
        ∧ main_pc s0 = MJoin
        ∧ ∀ sched s', run sched s0 = Some s' →
                      sensors s' !! 0%nat = Some SDone →
                      (1500 <= N.of_nat (ticks sched))%N.
Proof.
  eexists. split; [vm_compute; reflexivity|].
  do 2 (split; [reflexivity|]).
  intros sched s' Hrun Hdone.
  match type of Hrun with run _ ?s0 = _ =>
    destruct (run_sleeps_out sched s0 s' 0 1500 Hrun eq_refl) as [Hle|[m Hm]]
  end.
  - exact Hle.
  - rewrite Hdone in Hm. discriminate.
Qed.

(** C4 amended: the stop cuts the logger's wait short, not a sensor's
    sleep.  A sensor that sleeps leaves only after the rest of its sleep
    has passed, flag or no flag; a logger that waits is woken by the stop
    and leaves, after one drain and report, without any time passing. *)
Theorem C4_stop_wakes_logger_not_sensors sched s s' k n :
  sensors s !! k = Some (SSleep n) →
  run sched s = Some s' →
  sensors s' !! k = Some SDone →
  (n <= N.of_nat (ticks sched))%N
  ∧ (∀ s0 m c f,
        logger s0 = LWait m →
        ∃ s1, run (replicate 4 (RunLogger c f)) (signal_stop s0) = Some s1
              ∧ logger s1 = LDone
              ∧ ticks (replicate 4 (RunLogger c f)) = 0%nat).
Proof.
  intros Hk Hrun Hdone. split.
  - destruct (run_sleeps_out sched s s' k n Hrun Hk) as [Hle|[m Hm]];
      [done|congruence].
  - intros s0 m c f Hl.
    destruct (woken_logger_leaves c f (signal_stop s0)) as (s1 & H1 & H2).
    + by eapply signal_stop_wakes.
    + unfold signal_stop. by rewrite notify_all_flag.
    + exists s1. by repeat split.
Qed.

Lemma C4_stop_wakes_logger_not_sensors_witness :
  ∃ s s',
    sensors s !! 0%nat = Some (SSleep 3)
    ∧ run (finish_sleep 0 3) s = Some s'
    ∧ sensors s' !! 0%nat = Some SDone
    ∧ (3 <= N.of_nat (ticks (finish_sleep 0 3)))%N.
Proof.
  exists (set_flag true (set_sensors [SSleep 3] init)). eexists.
  split; [reflexivity|]. split; [vm_compute; reflexivity|].
  split; [reflexivity|].
  eapply (C4_stop_wakes_logger_not_sensors (finish_sleep 0 3)
            (set_flag true (set_sensors [SSleep 3] init)) _ 0 3).
  - reflexivity.
  - vm_compute. reflexivity.
  - reflexivity.
Defined.

(** C7 as stated fails: when the log file cannot be opened the logger
    writes the message and returns; whatever the other threads do, no
    cycle ever runs.  And when, the file open, the write of a summary line
    fails, nothing reports it: the streams have seen the alert and the
    summary line and no more. *)
Lemma C7_counterexample :
  (∃ s0, step (RunLogger true false) init = Some s0
         ∧ logger s0 = LDone
         ∧ out s0 = [(OpenFailed, true)]
         ∧ ∀ sched s', run sched s0 = Some s' →
                       observe drained sched s0 = [] ∧ out s' = out s0)
  ∧ out <$> run (one_reading_run ++ [RunLogger true false]) init
    = Some [(Alert 0 90, true); (LogLine 90 90 90, false)].
Proof.
  split; [|vm_compute; reflexivity].
  eexists. split; [reflexivity|]. do 2 (split; [reflexivity|]).
  intros sched s' Hrun.
  match type of Hrun with run _ ?s0 = _ =>
    destruct (run_after_done sched s0 s' eq_refl Hrun) as (_ & Hd & Ho)
  end.
  by split.
Qed.

Lemma same_but_delivery_refl s : same_but_delivery s s.
Proof. by split. Qed.

(** C7 amended: once the log file is open, whether the streams take the
    writes has no influence on the run: two runs that differ only in the
    outcome of the writes go through the same states but for what was
    delivered, so a failed write stops no later drain, summary or write,
    and nothing reports it; only a failed open is reported, and then the
    logger returns before its first cycle. *)
Theorem C7_write_failures_leave_the_loop_alone sched1 sched2 s :
  logger s ≠ LOpen →
  Forall2 same_thread sched1 sched2 →
  option_Forall2 same_but_delivery (run sched1 s) (run sched2 s)
  ∧ (∀ s0 c f batch,
        logger s0 = LReport batch →
        ∃ s1, step (RunLogger c f) s0 = Some s1
              ∧ logger s1 = LCheck
              ∧ attempts s1 = attempts s0 ++ logger_report batch)
  ∧ (∀ s0 c,
        logger s0 = LOpen →
        step (RunLogger c false) s0 =
          Some (set_logger LDone (write c false [OpenFailed] s0))).
Proof.
  intros Hopen Hsched. split; [|split].
  - apply run_same_but_delivery; [done|apply same_but_delivery_refl|done].
  - intros s0 c f batch Hl. eexists. split.
    + cbn [step]. unfold logger_step. rewrite Hl. reflexivity.
    + split; [done|]. by rewrite attempts_set_logger, attempts_write.
  - intros s0 c Hl. cbn [step]. unfold logger_step. by rewrite Hl.
Qed.

Lemma C7_write_failures_leave_the_loop_alone_witness :
  option_Forall2 same_but_delivery
    (run [RunLogger false false; RunLogger false false]
         (set_logger (LReport [mkTrafficData 0 90 1500%N]) init))
    (run [RunLogger true true; RunLogger true true]
         (set_logger (LReport [mkTrafficData 0 90 1500%N]) init)).
Proof.
  apply (C7_write_failures_leave_the_loop_alone
           [RunLogger false false; RunLogger false false]
           [RunLogger true true; RunLogger true true]
           (set_logger (LReport [mkTrafficData 0 90 1500%N]) init)).
  - discriminate.
  - repeat constructor.
Defined.

(** Once its sleep is over, a sensor that finds the flag set on its next
    check is done four steps later. *)
Lemma sensor_finishes k s :
  shutdown_flag s = true →
  sensors s !! k = Some (SSleep 0%N) →
  ∃ s', run [RunSensor k 10; RunSensor k 10; RunSensor k 10; RunSensor k 10] s
        = Some s'
        ∧ sensors s' !! k = Some SDone.
Proof.
  intros Hf Hk. pose proof (lookup_lt_Some _ _ _ Hk) as Hlt.
  eexists. split.
  - cbn [run step]. unfold sensor_step at 1. rewrite Hk.
    change (density_in_range 10) with true. cbn match.
    unfold sensor_step at 1. cbn [sensors set_sensors].
    rewrite list_lookup_insert_eq by done.
    unfold sensor_step at 1. cbn [sensors set_sensors set_data].
    rewrite list_lookup_insert_eq by (by rewrite length_insert).
    unfold sensor_step at 1.
    cbn [sensors set_sensors set_data shutdown_flag].
    rewrite ?notify_all_sensors, ?notify_all_flag.
    cbn [sensors set_sensors set_data shutdown_flag].
    rewrite list_lookup_insert_eq by (by rewrite !length_insert).
    rewrite Hf. reflexivity.
  - cbn [sensors set_sensors]. rewrite ?notify_all_sensors.
    cbn [sensors set_sensors set_data].
    apply list_lookup_insert_eq. by rewrite !length_insert.
Qed.

Lemma iter_tick_data n s : sensor_data (Nat.iter n tick s) = sensor_data s.
Proof. induction n as [|n IH]; [done|]. cbn. exact IH. Qed.

Lemma iter_tick_now n s : now (Nat.iter n tick s) = (now s + N.of_nat n)%N.
Proof.
  induction n as [|n IH]; [cbn; lia|].
  change (Nat.iter (S n) tick s) with (tick (Nat.iter n tick s)).
  cbn [tick now]. rewrite IH. lia.
Qed.

(** The four steps of [sensor_finishes] put one reading, built at the
    clock of the start, at the end of the buffer. *)
Lemma sensor_finishes_data k s :
  shutdown_flag s = true →
  sensors s !! k = Some (SSleep 0%N) →
  ∃ s', run [RunSensor k 10; RunSensor k 10; RunSensor k 10; RunSensor k 10] s
        = Some s'
        ∧ sensors s' !! k = Some SDone
        ∧ sensor_data s' =
            sensor_data s ++ [mkTrafficData (Z.of_nat k) 10 (now s)].
Proof.
  intros Hf Hk. pose proof (lookup_lt_Some _ _ _ Hk) as Hlt.
  eexists. split.
  - cbn [run step]. unfold sensor_step at 1. rewrite Hk.
    change (density_in_range 10) with true. cbn match.
    unfold sensor_step at 1. cbn [sensors set_sensors].
    rewrite list_lookup_insert_eq by done.
    unfold sensor_step at 1. cbn [sensors set_sensors set_data].
    rewrite list_lookup_insert_eq by (by rewrite length_insert).
    unfold sensor_step at 1.
    cbn [sensors set_sensors set_data shutdown_flag].
    rewrite ?notify_all_sensors, ?notify_all_flag.
    cbn [sensors set_sensors set_data shutdown_flag].
    rewrite list_lookup_insert_eq by (by rewrite !length_insert).
    rewrite Hf. reflexivity.
  - split.
    + cbn [sensors set_sensors]. rewrite ?notify_all_sensors.
      cbn [sensors set_sensors set_data].
      apply list_lookup_insert_eq. by rewrite !length_insert.
    + cbn [sensor_data set_sensors]. rewrite ?notify_all_data.
      reflexivity.
Qed.

(** A reading counted for sensor [k] is a reading appended. *)
Lemma pushed_by_pushed k sched s r :
  r ∈ observe (pushed_by k) sched s → r ∈ observe pushed sched s.
Proof.
  revert s. induction sched as [|e t IH]; intros s Hr; [done|].
  cbn [observe] in *. apply elem_of_app in Hr as [Hr|Hr]; apply elem_of_app.
  - left. destruct e as [|i d|c f| |]; cbn [pushed_by] in Hr;
      try (by inversion Hr).
    by case_decide; [|inversion Hr].
  - right. destruct (step e s); [by apply IH|done].
Qed.

(** C10: a sensor reads the flag at the top of its loop and nowhere else.
    So after the flag is set a sensor appends at most one more reading, and
    one that is asleep then does append one, a reading of its own, before
    it leaves; letting the rest of its sleep pass and running it does lead
    it out, with that one reading added at the end of the buffer.  Every
    reading so appended is in a drained batch or in the buffer at the end
    of the run. *)
Theorem C10_one_more_reading sched s s' k n :
  shutdown_flag s = true →
  sensors s !! k = Some (SSleep n) →
  run sched s = Some s' →
  (length (observe (pushed_by k) sched s) <= 1)%nat
  ∧ (sensors s' !! k = Some SDone →
     ∃ r, observe (pushed_by k) sched s = [r] ∧ own_reading k r)
  ∧ (∃ s0, run (finish_sleep k n) s = Some s0
           ∧ sensors s0 !! k = Some SDone)
  ∧ (∀ s1 d f,
        sensors s1 !! k ≠ Some SCheck →
        sensor_step k d (set_flag f s1) = set_flag f <$> sensor_step k d s1)
  ∧ (∀ s1 d,
        sensors s1 !! k = Some SCheck → shutdown_flag s1 = true →
        sensor_step k d s1 = Some (set_sensors (<[k := SDone]> (sensors s1)) s1))
  ∧ (∀ sched1 s1 s1' p,
        shutdown_flag s1 = true → sensors s1 !! k = Some p →
        run sched1 s1 = Some s1' →
        (length (observe (pushed_by k) sched1 s1) <= 1)%nat)
  ∧ (∀ r, r ∈ observe (pushed_by k) sched s →
          r ∈ concat (observe drained sched s) ++ sensor_data s')
  ∧ (∀ s1 d r,
        sensors s1 !! k = Some (SPush r) →
        pushed_by k (RunSensor k d) s1 = [r]
        ∧ ∃ s2, step (RunSensor k d) s1 = Some s2
                ∧ sensor_data s2 = sensor_data s1 ++ [r])
  ∧ (∃ s0, run (finish_sleep k n) s = Some s0
           ∧ sensors s0 !! k = Some SDone
           ∧ sensor_data s0 =
               sensor_data s ++ [mkTrafficData (Z.of_nat k) 10 (now s + n)]
           ∧ observe (pushed_by k) (finish_sleep k n) s
             = [mkTrafficData (Z.of_nat k) 10 (now s + n)]).
Proof.
  intros Hf Hk Hrun.
  assert (Hmost : ∀ sched1 s1 s1' p,
             shutdown_flag s1 = true → sensors s1 !! k = Some p →
             run sched1 s1 = Some s1' →
             (length (observe (pushed_by k) sched1 s1) <= 1)%nat).
  { intros sched1 s1 s1' p Hf1 Hk1 Hrun1.
    destruct (run_pending sched1 s1 s1' k p Hf1 Hrun1 Hk1) as (p' & _ & Hn).
    destruct p; cbn in Hn; lia. }
  assert (Hone : sensors s' !! k = Some SDone →
                 ∃ r, observe (pushed_by k) sched s = [r] ∧ own_reading k r).
  { intros Hdone.
    destruct (run_pending sched s s' k _ Hf Hrun Hk) as (p' & Hk' & Hn).
    rewrite Hdone in Hk'. simplify_eq. cbn in Hn.
    assert (Hown : Forall (own_reading k) (observe (pushed_by k) sched s)).
    { eapply run_own; [|done]. intros data Hd. rewrite Hk in Hd. done. }
    destruct (observe (pushed_by k) sched s) as [|r [|r' l]];
      cbn in Hn; try lia.
    exists r. split; [done|]. by inversion Hown. }
  assert (Hin : ∀ sched1 s1 s1' r,
             run sched1 s1 = Some s1' →
             r ∈ observe (pushed_by k) sched1 s1 →
             r ∈ concat (observe drained sched1 s1) ++ sensor_data s1').
  { intros sched1 s1 s1' r Hrun1 Hr.
    rewrite <- (run_conserves sched1 s1 s1' Hrun1).
    apply elem_of_app. right. by eapply pushed_by_pushed. }
  split; [by eapply Hmost|]. split; [exact Hone|].
  split; [|split; [|split; [|split; [|split; [|split]]]]].
  - unfold finish_sleep. rewrite run_app, run_ticks. cbn [mbind option_bind].
    apply sensor_finishes; [by rewrite iter_tick_flag|].
    rewrite (iter_tick_sleep _ n s k Hk). do 2 f_equal. lia.
  - intros s1 d f. apply sensor_step_flag_blind.
  - intros s1 d Hc Hf1. by rewrite (sensor_step_check k d s1 Hc), Hf1.
  - exact Hmost.
  - intros r. by apply Hin.
  - intros s1 d r Hk1. cbn [pushed_by pushed step]. unfold sensor_step.
    rewrite Hk1. rewrite decide_True by done.
    split; [done|]. eexists. split; [reflexivity|done].
  - destruct (sensor_finishes_data k (Nat.iter (N.to_nat n) tick s))
      as (s0 & Hrun0 & Hdone0 & Hdata0).
    { by rewrite iter_tick_flag. }
    { rewrite (iter_tick_sleep _ n s k Hk). do 2 f_equal. lia. }
    rewrite iter_tick_data, iter_tick_now, N2Nat.id in Hdata0.
    assert (Hfin : run (finish_sleep k n) s = Some s0).
    { unfold finish_sleep. rewrite run_app, run_ticks. exact Hrun0. }
    exists s0. do 3 (split; [done|]).
    destruct (run_pending (finish_sleep k n) s s0 k _ Hf Hfin Hk)
      as (p' & Hk' & Hn).
    rewrite Hdone0 in Hk'. simplify_eq. cbn in Hn.
    assert (Hown : Forall (own_reading k)
                     (observe (pushed_by k) (finish_sleep k n) s)).
    { eapply run_own; [|done]. intros data Hd. rewrite Hk in Hd. done. }
    destruct (observe (pushed_by k) (finish_sleep k n) s) as [|r [|r' l]] eqn:Ho;
      cbn in Hn; try lia.
    f_equal.
    assert (Hr : r ∈ observe (pushed_by k) (finish_sleep k n) s)
      by (rewrite Ho; by left).
    pose proof (pushed_by_pushed k _ _ _ Hr) as Hp.
    assert (Hnodrain : observe drained (finish_sleep k n) s = []).
    { clear. unfold finish_sleep.
      assert (Hd : ∀ sched1 s1,
                 Forall (fun e => match e with
                                  | RunLogger _ _ => False
                                  | _ => True
                                  end) sched1 →
                 observe drained sched1 s1 = []).
      { induction sched1 as [|e t IH]; intros s1 Hall; [done|].
        inversion Hall as [|? ? He Ht]; subst. cbn [observe].
        destruct (step e s1);
          [rewrite (IH _ Ht)|]; destruct e; try done. }
      apply Hd. apply Forall_app. split.
      - apply Forall_replicate. done.
      - repeat constructor. }
    pose proof (run_conserves _ _ _ Hfin) as Hc.
    rewrite Hnodrain, Hdata0 in Hc. cbn [concat app] in Hc.
    apply app_inv_head in Hc.
    assert (Hlen : length (observe pushed (finish_sleep k n) s) = 1%nat)
      by (by rewrite Hc).
    destruct (observe pushed (finish_sleep k n) s) as [|r0 [|r1 l0]];
      cbn in Hlen; try lia.
    simplify_eq. by apply list_elem_of_singleton in Hp.
Qed.

Lemma C10_one_more_reading_witness :
  ∃ s', run (finish_sleep 0 3) (set_flag true (set_sensors [SSleep 3] init))
        = Some s'
        ∧ sensors s' !! 0%nat = Some SDone
        ∧ sensor_data s' = [mkTrafficData 0 10 3%N]
        ∧ ∃ r, observe (pushed_by 0) (finish_sleep 0 3)
                 (set_flag true (set_sensors [SSleep 3] init)) = [r]
               ∧ own_reading 0 r.
Proof.
  eexists. split; [vm_compute; reflexivity|]. split; [reflexivity|].
  split; [reflexivity|].
  refine (proj1 (proj2 (C10_one_more_reading (finish_sleep 0 3)
            (set_flag true (set_sensors [SSleep 3] init)) _ 0 3 _ _ _)) _).
  - reflexivity.
  - reflexivity.
  - vm_compute. reflexivity.
  - reflexivity.
Defined.


(** * Further properties of the program *)

Section Cycle.

Implicit Types (l batch : list TrafficData).



Lemma alerts_for_nonempty batch mx :
  is_greatest mx (density <$> batch) →
  alerts_for batch ≠ [] ↔ CONGESTION_THRESHOLD < mx.
Proof.
  intros [Hin Hle]. apply list_elem_of_fmap in Hin as (dm & -> & Hdm).
  unfold alerts_for. split.
  - intros Hne.
    destruct (filter congested batch) as [|d r] eqn:Hf; [done|].
    assert (Hd : d ∈ filter congested batch) by (rewrite Hf; by left).
    apply list_elem_of_filter in Hd as [Hc Hd]. unfold congested in Hc.
    assert (density d <= density dm).
    { apply Hle, list_elem_of_fmap. eauto. }
    lia.
  - intros Hc Hnil. apply fmap_nil_inv in Hnil.
    assert (Hd : dm ∈ filter congested batch).
    { apply list_elem_of_filter. by split. }
    rewrite Hnil in Hd. inversion Hd.
Qed.

End Cycle.



(** X2: a cycle over a non-empty batch writes at least one alert exactly
    when the maximum it writes is above the threshold of 80. *)
Theorem X2_alert_iff_max_above_threshold batch :
  batch ≠ [] →
  ∃ a mn mx,
    logger_report batch = alerts_for batch ++ [LogLine a mn mx]
    ∧ (alerts_for batch ≠ [] ↔ CONGESTION_THRESHOLD < mx).
Proof.
  intros Hne.
  assert (Hv : density <$> batch ≠ []) by by destruct batch.
  destruct (greatest_exists _ Hv) as (g & Hg).
  eexists _, _, _. split; [by apply logger_report_nonempty|].
  rewrite (for_each_max batch acc0 g Hg). cbn [max_val acc0].
  rewrite (alerts_for_nonempty batch g Hg).
  unfold CONGESTION_THRESHOLD. lia.
Qed.

Lemma X2_alert_iff_max_above_threshold_witness :
  ∃ a mn mx,
    logger_report [mkTrafficData 3 81 0%N]
    = alerts_for [mkTrafficData 3 81 0%N] ++ [LogLine a mn mx]
    ∧ (alerts_for [mkTrafficData 3 81 0%N] ≠ [] ↔ CONGESTION_THRESHOLD < mx).
Proof.
  refine (X2_alert_iff_max_above_threshold [mkTrafficData 3 81 0%N] _).
  discriminate.
Defined.

Section Readings.

Implicit Types (s : State) (e : Event) (sched : list Event).

Lemma notify_all_now s : now (notify_all s) = now s.
Proof. unfold notify_all. by destruct (logger s). Qed.

Lemma well_formed_reading_later t t' d :
  (t <= t')%N → well_formed_reading t d → well_formed_reading t' d.
Proof. intros Ht (H1 & H2 & H3). repeat split; try tauto; lia. Qed.

Lemma Forall_well_formed_later t t' (l : list TrafficData) :
  (t <= t')%N →
  Forall (well_formed_reading t) l → Forall (well_formed_reading t') l.
Proof.
  intros Ht H. eapply Forall_impl; [exact H|].
  intros d. by apply well_formed_reading_later.
Qed.

Lemma step_readings_inv e s s' :
  readings_inv s → step e s = Some s' → readings_inv s'.
Proof.
  intros (Hb & Hp & Hr & Hn) H. destruct e as [|i d|c f| |]; cbn [step] in H.
  - simplify_eq. unfold readings_inv. cbn [tick now sensor_data sensors logger].
    split; [|split; [|split]].
    + eapply Forall_well_formed_later; [|done]. lia.
    + intros k data. rewrite lookup_tick_sensor.
      destruct (sensors s !! k) as [[]|] eqn:Hk; cbn; intros; simplify_eq.
      destruct (Hp k data Hk) as [Hw Hid]. split; [|done].
      eapply well_formed_reading_later; [|done]. lia.
    + intros b. destruct (logger s); cbn; intros; simplify_eq.
      eapply Forall_well_formed_later; [|by apply Hr]. lia.
    + by rewrite length_fmap.
  - assert (Hins : ∀ p k data,
              (∀ data, p = SPush data →
                       well_formed_reading (now s) data
                       ∧ sensor_id data = Z.of_nat i) →
              <[i := p]> (sensors s) !! k = Some (SPush data) →
              well_formed_reading (now s) data ∧ sensor_id data = Z.of_nat k).
    { intros p k data Hnew Hk.
      apply list_lookup_insert_Some in Hk as [(-> & -> & _)|[_ Hk]];
        [by apply Hnew|by eapply Hp]. }
    unfold readings_inv.
    step_inv H;
      cbn [now sensors sensor_data logger set_sensors set_data];
      rewrite ?notify_all_now, ?notify_all_sensors, ?notify_all_data,
        ?length_insert;
      (split; [|split; [|split]]);
      try (intros k data' Hk; eapply Hins; [|exact Hk]; intros; simplify_eq);
      try done.
    + match goal with Hl : sensors s !! i = Some _ |- _ =>
        pose proof (lookup_lt_Some _ _ _ Hl) as Hlt end.
      unfold well_formed_reading, density_in_range in *. cbn.
      rewrite Hn in Hlt. repeat split; try lia.
    + unfold push_back. apply Forall_app. split; [done|].
      constructor; [|done]. by eapply Hp.
    + intros b' Hb'. by apply Hr, notify_all_report.
  - unfold readings_inv.
    step_inv H; cbn; (split; [|split; [|split]]); try done;
      intros; simplify_eq; try done.
  - unfold readings_inv.
    step_inv H;
      cbn [now sensors sensor_data logger set_main set_flag];
      rewrite ?notify_all_now, ?notify_all_sensors, ?notify_all_data;
      (split; [|split; [|split]]); try done.
    intros b' Hb'. by apply Hr, notify_all_report.
  - unfold readings_inv.
    step_inv H; cbn; (split; [|split; [|split]]); try done.
Qed.

Lemma run_readings_inv sched s s' :
  readings_inv s → run sched s = Some s' → readings_inv s'.
Proof.
  revert s. induction sched as [|e r IH]; intros s Hs H.
  - cbn in H. by simplify_eq.
  - cbn [run] in H. destruct (step e s) as [s1|] eqn:Hs1; [|done].
    eapply IH; [|done]. by eapply step_readings_inv.
Qed.

Lemma init_readings_inv : readings_inv init.
Proof.
  split; [by constructor|]. split; [|split; [done|reflexivity]].
  intros k data Hk. apply list_elem_of_lookup_2 in Hk.
  apply elem_of_replicate in Hk as [? _]. done.
Qed.

End Readings.

(** X3: in every state of a run of the program there are five sensors, and
    every reading in the buffer or in the batch the logger holds carries
    the id of one of them (0 to 4), a density in [10, 100] and a time
    stamp not later than the clock. *)
Theorem X3_readings_well_formed sched s :
  run sched init = Some s →
  length (sensors s) = SENSOR_COUNT
  ∧ Forall (well_formed_reading (now s)) (sensor_data s)
  ∧ (∀ b, logger s = LReport b → Forall (well_formed_reading (now s)) b).
Proof.
  intros Hrun.
  destruct (run_readings_inv sched init s init_readings_inv Hrun)
    as (Hb & _ & Hr & Hn).
  done.
Qed.

Lemma X3_readings_well_formed_witness :
  ∃ s, run one_reading_run init = Some s
       ∧ ∀ b, logger s = LReport b →
              Forall (well_formed_reading (now s)) b.
Proof.
  eexists. split; [vm_compute; reflexivity|].
  match goal with
  | |- ∀ b, logger ?s = _ → _ =>
      exact (proj2 (proj2 (X3_readings_well_formed one_reading_run s
                             ltac:(vm_compute; reflexivity))))
  end.
Defined.

Section Shutdown.

Implicit Types (s : State) (e : Event) (sched : list Event).

Lemma all_joined_spec s :
  all_joined s = true ↔
  logger s = LDone ∧ ∀ k p, sensors s !! k = Some p → p = SDone.
Proof.
  unfold all_joined. rewrite andb_true_iff, forallb_forall. split.
  - intros [Hs Hl]. split; [by destruct (logger s)|].
    intros k p Hk. apply list_elem_of_lookup_2, list_elem_of_In in Hk.
    specialize (Hs p Hk). by destruct p.
  - intros [Hl Hs]. split; [|by rewrite Hl].
    intros p Hp. apply list_elem_of_In, list_elem_of_lookup_1 in Hp as [k Hk].
    by rewrite (Hs k p Hk).
Qed.

Lemma notify_all_done s : logger (notify_all s) = LDone → logger s = LDone.
Proof. unfold notify_all. destruct (logger s) eqn:E; cbn; congruence. Qed.

Lemma notify_all_attempts s : attempts (notify_all s) = attempts s.
Proof. unfold attempts. by rewrite notify_all_out. Qed.

(** A thread that has been joined takes no step. *)
Lemma joined_only_ticks e s s' :
  all_joined s = true → main_pc s = MDone → step e s = Some s' → e = Tick.
Proof.
  intros Hj Hm H. apply all_joined_spec in Hj as [Hl Hs].
  destruct e as [|i d|c f| |]; cbn [step] in H; [done|..].
  - unfold sensor_step in H.
    destruct (sensors s !! i) as [p|] eqn:Hi; [|done].
    by rewrite (Hs i p Hi) in H.
  - unfold logger_step in H. by rewrite Hl in H.
  - unfold main_step in H. by rewrite Hm in H.
  - unfold spurious_wake in H. by rewrite Hl in H.
Qed.

Lemma all_joined_tick s : all_joined (tick s) = all_joined s.
Proof.
  unfold all_joined. cbn [tick sensors logger]. f_equal.
  - induction (sensors s) as [|p l IH]; [done|].
    cbn. rewrite <- IH. by destruct p.
  - by destruct (logger s).
Qed.

Lemma step_shutdown_inv e s s' :
  shutdown_inv s → step e s = Some s' → shutdown_inv s'.
Proof.
  intros (Ha & Hb & Hc & Hd) H.
  assert (main_pc s = MDone ∨ main_pc s ≠ MDone) as [Hm|Hm]
    by (destruct (main_pc s); auto).
  { pose proof (joined_only_ticks e s s' (Hd Hm) Hm H) as ->.
    cbn [step] in H. simplify_eq. unfold shutdown_inv.
    rewrite all_joined_tick. cbn [tick main_pc shutdown_flag now sensors logger].
    rewrite Hm in *. cbn [tick_main]. destruct Ha as [Hf Hn].
    split; [split; [done|lia]|]. split; [done|]. split; [by left|].
    intros _. by apply Hd. }
  assert (Hjoin : ∀ s1, main_pc s1 = main_pc s →
                        main_pc s1 = MDone → all_joined s1 = true)
    by (intros s1 -> ?; done).
  destruct e as [|i d|c f| |]; cbn [step] in H.
  - simplify_eq. unfold shutdown_inv.
    cbn [tick main_pc shutdown_flag now sensors logger].
    split; [|split; [|split]].
    + destruct (main_pc s); cbn [tick_main]; (split; [tauto|lia]).
    + intros k. rewrite lookup_tick_sensor.
      destruct (sensors s !! k) as [[]|] eqn:Hk; cbn; intros; simplify_eq.
      by eapply Hb.
    + intros Hl. apply Hc. by destruct (logger s).
    + intros Hm'. destruct (main_pc s); done.
  - assert (main_pc s' = main_pc s ∧ shutdown_flag s' = shutdown_flag s
            ∧ now s' = now s ∧ attempts s' = attempts s
            ∧ (logger s' = LDone → logger s = LDone)
            ∧ ∀ k, sensors s' !! k = Some SDone →
                   sensors s !! k = Some SDone ∨ shutdown_flag s = true)
      as (Em & Ef & En & Ea & El & Es).
    { clear Ha Hb Hc Hd Hm Hjoin.
      step_inv H;
        cbn [main_pc shutdown_flag now sensors logger set_sensors set_data];
        rewrite ?notify_all_main, ?notify_all_flag, ?notify_all_now,
          ?notify_all_sensors;
        repeat split; try done;
        try apply notify_all_attempts; try apply notify_all_done;
        intros k Hk;
        apply list_lookup_insert_Some in Hk as [(? & ? & ?)|[_ Hk]];
        simplify_eq; auto. }
    unfold shutdown_inv. rewrite Em, Ef, En, Ea.
    split; [done|]. split; [|split].
    + intros k Hk. destruct (Es k Hk); [by eapply Hb|done].
    + intros Hl. by apply Hc, El.
    + intros Hm'. done.
  - assert (main_pc s' = main_pc s ∧ shutdown_flag s' = shutdown_flag s
            ∧ now s' = now s ∧ sensors s' = sensors s
            ∧ (logger s' = LDone →
               shutdown_flag s = true ∨ OpenFailed ∈ attempts s'))
      as (Em & Ef & En & Es & El).
    { clear Ha Hb Hd Hm Hjoin.
      step_inv H;
        cbn [main_pc shutdown_flag now sensors logger set_logger set_data
               write set_out];
        repeat split; try done; intros _; try (by left).
      right. rewrite attempts_set_logger, attempts_write.
      apply elem_of_app. right. by left. }
    unfold shutdown_inv. rewrite Em, Ef, En, Es.
    split; [done|]. split; [done|]. split; [done|]. intros Hm'. done.
  - unfold shutdown_inv.
    unfold main_step in H. destruct (main_pc s) as [[|n]| | |] eqn:Em;
      try done.
    + simplify_eq. cbn [main_pc shutdown_flag now sensors logger set_main
                          set_flag].
      destruct Ha as [_ Hn]. split; [split; [done|lia]|].
      split; [done|]. split; [by left|done].
    + simplify_eq. cbn [main_pc shutdown_flag now sensors logger set_main].
      rewrite notify_all_flag, notify_all_now, notify_all_sensors.
      split; [done|]. split; [done|]. split; [|done].
      intros _. left. tauto.
    + destruct (all_joined s) eqn:Hj; simplify_eq.
      cbn [main_pc shutdown_flag now sensors logger set_main].
      split; [done|]. split; [done|]. split; [done|]. done.
  - unfold spurious_wake in H. destruct (logger s) eqn:El; simplify_eq.
    unfold shutdown_inv.
    cbn [main_pc shutdown_flag now sensors logger set_logger].
    split; [done|]. split; [done|]. split; [done|].
    intros Hm'. done.
Qed.

Lemma run_shutdown_inv sched s s' :
  shutdown_inv s → run sched s = Some s' → shutdown_inv s'.
Proof.
  revert s. induction sched as [|e r IH]; intros s Hs H.
  - cbn in H. by simplify_eq.
  - cbn [run] in H. destruct (step e s) as [s1|] eqn:Hs1; [|done].
    eapply IH; [|done]. by eapply step_shutdown_inv.
Qed.

Lemma init_shutdown_inv : shutdown_inv init.
Proof.
  split; [split; [done|cbn; lia]|]. split; [|split; [done|done]].
  intros k Hk. apply list_elem_of_lookup_2 in Hk.
  apply elem_of_replicate in Hk as [? _]. done.
Qed.

(** The clock counts the ticks of the schedule. *)
Lemma run_now sched s s' :
  run sched s = Some s' → now s' = (now s + N.of_nat (ticks sched))%N.
Proof.
  revert s. induction sched as [|e r IH]; intros s H.
  - cbn in *. simplify_eq. lia.
  - cbn [run] in H. destruct (step e s) as [s1|] eqn:Hs; [|done].
    rewrite (IH s1 H).
    destruct e as [|i d|c f| |]; cbn [step ticks] in *.
    + simplify_eq. cbn. lia.
    + step_inv Hs; cbn; rewrite ?notify_all_now; done.
    + step_inv Hs; cbn; done.
    + step_inv Hs; cbn; rewrite ?notify_all_now; done.
    + step_inv Hs; cbn; done.
Qed.

End Shutdown.

(** X4: in a run of the program the flag is not set before 60 s have
    passed, no sensor leaves its loop before the flag is set, and the
    logger leaves before the flag is set only when the log file could not
    be opened. *)
Theorem X4_no_exit_before_stop sched s :
  run sched init = Some s →
  now s = N.of_nat (ticks sched)
  ∧ (shutdown_flag s = true → (RUN_DURATION <= N.of_nat (ticks sched))%N)
  ∧ (∀ k, sensors s !! k = Some SDone → shutdown_flag s = true)
  ∧ (logger s = LDone → shutdown_flag s = true ∨ OpenFailed ∈ attempts s).
Proof.
  intros Hrun.
  pose proof (run_now sched init s Hrun) as Hnow. cbn [now init] in Hnow.
  rewrite N.add_0_l in Hnow.
  destruct (run_shutdown_inv sched init s init_shutdown_inv Hrun)
    as (Ha & Hb & Hc & _).
  split; [done|]. split; [|split; [done|done]].
  intros Hf. rewrite <- Hnow.
  destruct (main_pc s); destruct Ha as [Hf' Hn]; [congruence|done..].
Qed.

Lemma X4_no_exit_before_stop_witness :
  ∃ s, run stop_during_sleep init = Some s
       ∧ shutdown_flag s = true
       ∧ (RUN_DURATION <= N.of_nat (ticks stop_during_sleep))%N.
Proof.
  eexists. split; [vm_compute; reflexivity|]. split; [reflexivity|].
  match goal with
  | |- (_ <= N.of_nat (ticks ?r))%N =>
      exact (proj1 (proj2 (X4_no_exit_before_stop r _
                             ltac:(vm_compute; reflexivity))) eq_refl)
  end.
Defined.

(** X5: in a run of the program [main] gets past its joins only when the
    flag is set, the logger has returned and every sensor has left its
    loop. *)
Theorem X5_main_returns_after_all sched s :
  run sched init = Some s →
  main_pc s = MDone →
  shutdown_flag s = true
  ∧ logger s = LDone
  ∧ ∀ k p, sensors s !! k = Some p → p = SDone.
Proof.
  intros Hrun Hm.
  destruct (run_shutdown_inv sched init s init_shutdown_inv Hrun)
    as (Ha & _ & _ & Hd).
  rewrite Hm in Ha. destruct Ha as [Hf _].
  split; [done|]. by apply all_joined_spec, Hd.
Qed.

Lemma X5_main_returns_after_all_witness :
  ∃ s, run shortest_full_run init = Some s
       ∧ main_pc s = MDone
       ∧ shutdown_flag s = true
       ∧ logger s = LDone
       ∧ ∀ k p, sensors s !! k = Some p → p = SDone.
Proof.
  eexists. split; [vm_compute; reflexivity|]. split; [reflexivity|].
  match goal with
  | |- _ ∧ logger ?s = _ ∧ _ =>
      exact (X5_main_returns_after_all shortest_full_run s
               ltac:(vm_compute; reflexivity) eq_refl)
  end.
Defined.

Section Rate.

Implicit Types (s : State) (e : Event) (sched : list Event).

Lemma step_rate e s s' k p :
  step e s = Some s' →
  sensors s !! k = Some p →
  ∃ p', sensors s' !! k = Some p'
        ∧ (SENSOR_UPDATE_INTERVAL * N.of_nat (length (pushed_by k e s))
           + slept p' <= N.of_nat (ticks [e]) + slept p)%N.
Proof.
  intros H Hk. destruct e as [|i d|c f| |]; cbn [step] in H.
  - simplify_eq. cbn [tick sensors pushed_by]. rewrite lookup_tick_sensor, Hk.
    exists (tick_sensor p). split; [done|].
    unfold SENSOR_UPDATE_INTERVAL. destruct p; cbn [tick_sensor slept ticks length];
      unfold SENSOR_UPDATE_INTERVAL; lia.
  - cbn [pushed_by pushed]. destruct (decide (i = k)) as [->|Hne].
    + pose proof (lookup_lt_Some _ _ _ Hk) as Hlt.
      step_inv H; cbn [sensors set_sensors set_data];
        rewrite ?notify_all_sensors;
        rewrite list_lookup_insert_eq by done;
        eexists; (split; [done|]);
        cbn [slept ticks length]; unfold SENSOR_UPDATE_INTERVAL; lia.
    + exists p. split; [|cbn; lia].
      step_inv H; cbn [sensors set_sensors set_data];
        rewrite ?notify_all_sensors;
        rewrite list_lookup_insert_ne by done; done.
  - exists p. split; [|cbn; lia]. step_inv H; cbn; done.
  - exists p. split; [|cbn; lia].
    step_inv H; cbn; rewrite ?notify_all_sensors; done.
  - exists p. split; [|cbn; lia]. step_inv H; cbn; done.
Qed.

Lemma run_rate sched s s' k p :
  run sched s = Some s' →
  sensors s !! k = Some p →
  ∃ p', sensors s' !! k = Some p'
        ∧ (SENSOR_UPDATE_INTERVAL
           * N.of_nat (length (observe (pushed_by k) sched s))
           + slept p' <= N.of_nat (ticks sched) + slept p)%N.
Proof.
  revert s p. induction sched as [|e r IH]; intros s p H Hk.
  - cbn in *. simplify_eq. exists p. split; [done|]. lia.
  - cbn [run observe] in *. destruct (step e s) as [s1|] eqn:Hs; [|done].
    destruct (step_rate e s s1 k p Hs Hk) as (p1 & Hk1 & Hn1).
    destruct (IH s1 p1 H Hk1) as (p' & Hk' & Hn').
    exists p'. split; [done|]. rewrite length_app.
    assert (ticks (e :: r) = (ticks [e] + ticks r)%nat) as ->
      by (by destruct e).
    lia.
Qed.

End Rate.

(** X6: a sensor appends at most one reading per sleep interval: over any
    run, 1500 ms times the number of readings a sensor appends is at most
    the time the run takes plus the part of a sleep the sensor had behind
    it at the start (none at the top of its loop). *)
Theorem X6_one_reading_per_interval sched s s' k p :
  run sched s = Some s' →
  sensors s !! k = Some p →
  (SENSOR_UPDATE_INTERVAL * N.of_nat (length (observe (pushed_by k) sched s))
   <= N.of_nat (ticks sched) + slept p)%N.
Proof.
  intros Hrun Hk.
  destruct (run_rate sched s s' k p Hrun Hk) as (p' & _ & Hn). lia.
Qed.

Lemma X6_one_reading_per_interval_witness :
  (SENSOR_UPDATE_INTERVAL
   * N.of_nat (length (observe (pushed_by 0) one_reading_run init))
   <= N.of_nat (ticks one_reading_run) + slept SCheck)%N.
Proof.
  refine (X6_one_reading_per_interval one_reading_run init _ 0 SCheck _ _).
  - vm_compute. reflexivity.
  - reflexivity.
Defined.

Section Reports.

Implicit Types (s : State) (e : Event) (sched : list Event).

Lemma step_reports e s s' :
  logger s ≠ LOpen →
  step e s = Some s' →
  logger s' ≠ LOpen
  ∧ attempts s' ++ pending_report s' =
      attempts s ++ pending_report s
      ++ concat (logger_report <$> drained e s).
Proof.
  intros Hopen H. destruct e as [|i d|c f| |]; cbn [step] in H.
  - simplify_eq. unfold pending_report, drained. cbn.
    split; [by destruct (logger s)|].
    destruct (logger s); cbn; by rewrite ?app_nil_r.
  - assert (attempts s' = attempts s
            ∧ (logger s' = logger s
               ∨ (∃ n, logger s = LWait n) ∧ logger s' = LWoken))
      as (Ea & El).
    { step_inv H; cbn [logger set_sensors set_data]; unfold attempts; cbn;
        rewrite ?notify_all_out; (split; [done|]); try (by left);
        unfold notify_all; destruct (logger s) eqn:E; cbn; eauto. }
    unfold pending_report, drained. rewrite Ea.
    destruct El as [-> | [[n Hn] ->]].
    + split; [done|]. by rewrite app_nil_r.
    + rewrite Hn. split; [done|]. by rewrite !app_nil_r.
  - unfold pending_report, drained.
    unfold logger_step, swap_out in H.
    destruct (logger s) as [| | |[|n]| | |b|] eqn:El; try done;
      try (destruct (shutdown_flag s)); simplify_eq;
      cbn [logger set_logger set_data sensor_data fmap list_fmap concat];
      (split; [done|]);
      rewrite ?attempts_set_logger, ?attempts_write, ?app_nil_r; done.
  - assert (attempts s' = attempts s
            ∧ (logger s' = logger s
               ∨ (∃ n, logger s = LWait n) ∧ logger s' = LWoken))
      as (Ea & El).
    { step_inv H; cbn [logger set_main set_flag]; unfold attempts; cbn;
        rewrite ?notify_all_out; (split; [done|]); try (by left);
        unfold notify_all; destruct (logger s) eqn:E; cbn; eauto. }
    unfold pending_report, drained. rewrite Ea.
    destruct El as [-> | [[n Hn] ->]].
    + split; [done|]. by rewrite app_nil_r.
    + rewrite Hn. split; [done|]. by rewrite !app_nil_r.
  - unfold pending_report, drained.
    step_inv H; cbn; (split; [done|]); by rewrite ?app_nil_r.
Qed.

Lemma run_reports sched s s' :
  logger s ≠ LOpen →
  run sched s = Some s' →
  attempts s' ++ pending_report s' =
    attempts s ++ pending_report s
    ++ concat (logger_report <$> observe drained sched s).
Proof.
  revert s. induction sched as [|e r IH]; intros s Hopen H.
  - cbn in *. simplify_eq. by rewrite app_nil_r.
  - cbn [run observe] in *. destruct (step e s) as [s1|] eqn:Hs; [|done].
    destruct (step_reports e s s1 Hopen Hs) as [Hopen1 H1].
    rewrite (IH s1 Hopen1 H), fmap_app, concat_app, !app_assoc.
    f_equal. rewrite <- !app_assoc. exact H1.
Qed.

End Reports.

(** X7: once the log file is open, what the logger writes is determined by
    what it drains: over any run, the writes made, followed by the report
    of a batch swapped out and not yet written, are the earlier writes and
    pending report followed by the reports of the drained batches, in the
    order of the drains. *)
Theorem X7_writes_are_reports_of_drains sched s s' :
  logger s ≠ LOpen →
  run sched s = Some s' →
  attempts s' ++ pending_report s' =
    attempts s ++ pending_report s
    ++ concat (logger_report <$> observe drained sched s).
Proof. apply run_reports. Qed.

Lemma X7_writes_are_reports_of_drains_witness :
  ∃ s', run (replicate 4 (RunLogger true true))
          (set_data [mkTrafficData 0 90 1500%N] (set_logger LWoken init))
        = Some s'
        ∧ attempts s' ++ pending_report s' =
            concat (logger_report <$>
                      observe drained (replicate 4 (RunLogger true true))
                        (set_data [mkTrafficData 0 90 1500%N]
                           (set_logger LWoken init))).
Proof.
  eexists. split; [vm_compute; reflexivity|].
  refine (X7_writes_are_reports_of_drains
            (replicate 4 (RunLogger true true))
            (set_data [mkTrafficData 0 90 1500%N] (set_logger LWoken init))
            _ _ _).
  - discriminate.
  - vm_compute. reflexivity.
Defined.

(** X8: an append wakes a waiting logger whatever is left of its wait: the
    sensor's append and notification followed by two logger steps hand the
    logger the whole buffer, the new reading last, without any time
    passing. *)
Theorem X8_append_wakes_logger s k d r n c f :
  logger s = LWait n →
  sensors s !! k = Some (SPush r) →
  ∃ s', run [RunSensor k d; RunSensor k d; RunLogger c f; RunLogger c f] s
        = Some s'
        ∧ logger s' = LReport (sensor_data s ++ [r])
        ∧ sensor_data s' = []
        ∧ now s' = now s.
Proof.
  intros Hl Hk. pose proof (lookup_lt_Some _ _ _ Hk) as Hlt.
  eexists. split.
  - cbn [run step]. unfold sensor_step at 1. rewrite Hk.
    unfold sensor_step at 1. cbn [sensors set_sensors set_data].
    rewrite list_lookup_insert_eq by done.
    unfold notify_all. cbn [logger set_sensors set_data]. rewrite Hl.
    unfold logger_step at 1. cbn [logger set_sensors set_logger].
    unfold logger_step, swap_out.
    cbn [logger set_logger sensor_data set_sensors set_data]. reflexivity.
  - done.
Qed.

Lemma X8_append_wakes_logger_witness :
  ∃ s', run [RunSensor 0 0; RunSensor 0 0; RunLogger true true;
             RunLogger true true]
          (set_sensors [SPush (mkTrafficData 0 90 7%N)]
             (set_logger (LWait 2999) init))
        = Some s'
        ∧ logger s' = LReport [mkTrafficData 0 90 7%N].
Proof.
  destruct (X8_append_wakes_logger
              (set_sensors [SPush (mkTrafficData 0 90 7%N)]
                 (set_logger (LWait 2999) init))
              0 0 (mkTrafficData 0 90 7%N) 2999%N true true eq_refl eq_refl)
    as (s' & Hrun & Hl & _).
  exists s'. split; [exact Hrun|exact Hl].
Defined.

Section MissedStop.

Implicit Types (s : State) (e : Event) (sched : list Event).

Lemma run_waits_out sched s s' n :
  run sched s = Some s' →
  logger s = LWait n →
  (∀ k p, sensors s !! k = Some p → p = SDone) →
  main_pc s = MJoin →
  SpuriousWake ∉ sched →
  (n <= N.of_nat (ticks sched))%N ∨ ∃ m, logger s' = LWait m.
Proof.
  revert s n. induction sched as [|e r IH]; intros s n H Hl Hs Hm Hno.
  - cbn in H. simplify_eq. right. eauto.
  - destruct n as [|p]; [left; lia|].
    cbn [run] in H. destruct (step e s) as [s1|] eqn:Hs1; [|done].
    destruct e as [|i d|c f| |]; cbn [step] in Hs1.
    + simplify_eq.
      destruct (IH (tick s) (N.pred (Npos p)) H) as [Hle|Hw].
      * cbn. by rewrite Hl.
      * intros k q. cbn [tick sensors]. rewrite lookup_tick_sensor.
        destruct (sensors s !! k) as [q0|] eqn:Hk; cbn; intros; simplify_eq.
        by rewrite (Hs k q0 Hk).
      * cbn. by rewrite Hm.
      * intros Hin. apply Hno. by right.
      * left. cbn [ticks]. lia.
      * by right.
    + unfold sensor_step in Hs1.
      destruct (sensors s !! i) as [q|] eqn:Hi; [|done].
      by rewrite (Hs i q Hi) in Hs1.
    + unfold logger_step in Hs1. by rewrite Hl in Hs1.
    + unfold main_step, all_joined in Hs1. rewrite Hm, Hl in Hs1.
      by rewrite andb_false_r in Hs1.
    + exfalso. apply Hno. by left.
Qed.

End MissedStop.

(** X9: a logger that starts to wait after the stop notification is not
    woken by it: once the sensors have left and [main] waits in its joins,
    and barring a spurious wake-up, the logger stays in its wait until
    what is left of the aggregation interval has passed. *)
Theorem X9_missed_stop_waits_out sched s s' n :
  run sched s = Some s' →
  logger s = LWait n →
  (∀ k p, sensors s !! k = Some p → p = SDone) →
  main_pc s = MJoin →
  SpuriousWake ∉ sched →
  (∃ m, logger s' = LWait m) ∨ (n <= N.of_nat (ticks sched))%N.
Proof.
  intros Hrun Hl Hs Hm Hno.
  destruct (run_waits_out sched s s' n Hrun Hl Hs Hm Hno); [by right|by left].
Qed.

Lemma X9_missed_stop_waits_out_witness :
  ∃ s, run missed_stop_run init = Some s
       ∧ shutdown_flag s = true
       ∧ logger s = LWait AGGREGATION_INTERVAL
       ∧ ∃ s', run [Tick; Tick] s = Some s'
               ∧ ((∃ m, logger s' = LWait m)
                  ∨ (AGGREGATION_INTERVAL <= N.of_nat (ticks [Tick; Tick]))%N).
Proof.
  eexists. split; [vm_compute; reflexivity|].
  split; [reflexivity|]. split; [reflexivity|].
  eexists. split; [reflexivity|].
  eapply (X9_missed_stop_waits_out [Tick; Tick]).
  - reflexivity.
  - reflexivity.
  - intros k p Hk.
    do 5 (destruct k as [|k]; [cbn in Hk; by simplify_eq|]). done.
  - reflexivity.
  - intros Hin. apply elem_of_cons in Hin as [?|Hin]; [done|].
    apply elem_of_cons in Hin as [?|Hin]; [done|]. inversion Hin.
Defined.

Section Completion.

Implicit Types (s : State) (e : Event) (sched : list Event).

Lemma run_cons e sched s : run (e :: sched) s = step e s ≫= run sched.
Proof. cbn [run]. by destruct (step e s). Qed.

Lemma run_sensors_length sched s s' :
  run sched s = Some s' → length (sensors s') = length (sensors s).
Proof.
  revert s. induction sched as [|e r IH]; intros s H.
  - cbn in H. by simplify_eq.
  - cbn [run] in H. destruct (step e s) as [s1|] eqn:Hs; [|done].
    rewrite (IH s1 H). by eapply step_sensors_length.
Qed.

(** A sensor that has left stays out. *)
Lemma run_done_stays sched s s' k :
  run sched s = Some s' →
  sensors s !! k = Some SDone → sensors s' !! k = Some SDone.
Proof.
  revert s. induction sched as [|e r IH]; intros s H Hk.
  - cbn in H. by simplify_eq.
  - cbn [run] in H. destruct (step e s) as [s1|] eqn:Hs; [|done].
    apply (IH s1 H).
    destruct e as [|i d|c f| |]; cbn [step] in Hs.
    + simplify_eq. cbn [tick sensors]. by rewrite lookup_tick_sensor, Hk.
    + destruct (decide (i = k)) as [->|Hne].
      * unfold sensor_step in Hs. by rewrite Hk in Hs.
      * step_inv Hs; cbn [sensors set_sensors set_data];
          rewrite ?notify_all_sensors;
          rewrite list_lookup_insert_ne by done; done.
    + step_inv Hs; cbn; done.
    + step_inv Hs; cbn; rewrite ?notify_all_sensors; done.
    + step_inv Hs; cbn; done.
Qed.

(** Once in its joins, [main] stays there until it is done. *)
Lemma run_main_joined sched s s' :
  run sched s = Some s' →
  main_pc s = MJoin ∨ main_pc s = MDone →
  main_pc s' = MJoin ∨ main_pc s' = MDone.
Proof.
  revert s. induction sched as [|e r IH]; intros s H Hm.
  - cbn in H. by simplify_eq.
  - cbn [run] in H. destruct (step e s) as [s1|] eqn:Hs; [|done].
    apply (IH s1 H).
    destruct e as [|i d|c f| |]; cbn [step] in Hs.
    + simplify_eq. cbn. by destruct Hm as [-> | ->]; cbn; auto.
    + step_inv Hs; cbn; rewrite ?notify_all_main; done.
    + step_inv Hs; cbn; done.
    + destruct Hm as [Hm|Hm]; unfold main_step in Hs; rewrite Hm in Hs;
        [|done]. case_match; simplify_eq. cbn. by right.
    + step_inv Hs; cbn; done.
Qed.

Lemma notified_sensor_leaves k s :
  shutdown_flag s = true →
  sensors s !! k = Some SNotify →
  ∃ s', run (replicate 2 (RunSensor k 10)) s = Some s'
        ∧ sensors s' !! k = Some SDone.
Proof.
  intros Hf Hk. pose proof (lookup_lt_Some _ _ _ Hk) as Hlt.
  eexists. split.
  - cbn [replicate run step]. unfold sensor_step at 1. rewrite Hk.
    unfold sensor_step.
    cbn [sensors set_sensors shutdown_flag].
    rewrite ?notify_all_flag, ?notify_all_sensors.
    rewrite list_lookup_insert_eq by done.
    rewrite Hf. reflexivity.
  - cbn [sensors set_sensors]. rewrite ?notify_all_sensors.
    apply list_lookup_insert_eq. by rewrite !length_insert.
Qed.

Lemma pushing_sensor_leaves k r s :
  shutdown_flag s = true →
  sensors s !! k = Some (SPush r) →
  ∃ s', run (replicate 3 (RunSensor k 10)) s = Some s'
        ∧ sensors s' !! k = Some SDone.
Proof.
  intros Hf Hk. pose proof (lookup_lt_Some _ _ _ Hk) as Hlt.
  change (replicate 3 (RunSensor k 10))
    with (RunSensor k 10 :: replicate 2 (RunSensor k 10)).
  rewrite run_cons. cbn [step]. unfold sensor_step at 1. rewrite Hk.
  cbn [mbind option_bind]. apply notified_sensor_leaves; [done|].
  cbn [sensors set_sensors]. by apply list_lookup_insert_eq.
Qed.

(** With the flag set, every sensor can be run to its exit. *)
Lemma sensor_exit_run k p s :
  shutdown_flag s = true →
  sensors s !! k = Some p →
  ∃ s', run (sensor_exit k p) s = Some s' ∧ sensors s' !! k = Some SDone.
Proof.
  intros Hf Hk. pose proof (lookup_lt_Some _ _ _ Hk) as Hlt.
  destruct p as [|n|r| |]; cbn [sensor_exit].
  - eexists. split.
    + cbn [replicate run step]. rewrite (sensor_step_check k 10 s Hk), Hf.
      reflexivity.
    + cbn [sensors set_sensors]. by apply list_lookup_insert_eq.
  - rewrite run_app, run_ticks. cbn [mbind option_bind].
    apply sensor_finishes; [by rewrite iter_tick_flag|].
    rewrite (iter_tick_sleep _ n s k Hk). do 2 f_equal. lia.
  - by eapply pushing_sensor_leaves.
  - by apply notified_sensor_leaves.
  - exists s. by split.
Qed.

Lemma sensor_exit_no_spurious k p :
  Forall (fun e => e ≠ SpuriousWake) (sensor_exit k p).
Proof.
  destruct p; cbn [sensor_exit];
    repeat first [ apply Forall_app; split
                 | apply Forall_replicate; done
                 | constructor; [done|]
                 | constructor ].
Qed.

Lemma logger_exit_no_spurious p :
  Forall (fun e => e ≠ SpuriousWake) (logger_exit p).
Proof.
  destruct p; cbn [logger_exit];
    repeat first [ apply Forall_app; split
                 | apply Forall_replicate; done
                 | constructor; [done|]
                 | constructor ].
Qed.

Lemma sensors_exit_upto m s :
  shutdown_flag s = true →
  (m <= length (sensors s))%nat →
  ∃ sched s', run sched s = Some s'
              ∧ Forall (fun e => e ≠ SpuriousWake) sched
              ∧ ∀ k, (k < m)%nat → sensors s' !! k = Some SDone.
Proof.
  intros Hf. induction m as [|m IH]; intros Hm.
  - exists [], s. split; [done|]. split; [constructor|]. intros k Hk. lia.
  - destruct IH as (sched1 & s1 & Hrun1 & Hno1 & Hdone1); [lia|].
    assert (is_Some (sensors s1 !! m)) as [p Hp].
    { apply lookup_lt_is_Some. rewrite (run_sensors_length _ _ _ Hrun1). lia. }
    destruct (sensor_exit_run m p s1) as (s2 & Hrun2 & Hdone2);
      [by eapply run_flag_stays|done|].
    exists (sched1 ++ sensor_exit m p), s2. split; [|split].
    + rewrite run_app, Hrun1. exact Hrun2.
    + apply Forall_app. split; [done|apply sensor_exit_no_spurious].
    + intros k Hk. destruct (decide (k = m)) as [->|Hne]; [done|].
      eapply run_done_stays; [exact Hrun2|]. apply Hdone1. lia.
Qed.

Lemma iter_tick_wait n m s :
  logger s = LWait m →
  logger (Nat.iter n tick s) = LWait (m - N.of_nat n).
Proof.
  revert m. induction n as [|n IH]; intros m Hl.
  - cbn. rewrite Hl. f_equal. lia.
  - change (Nat.iter (S n) tick s) with (tick (Nat.iter n tick s)).
    cbn [tick logger]. rewrite (IH m Hl). cbn. f_equal. lia.
Qed.

Lemma waiting_logger_leaves n s :
  shutdown_flag s = true →
  logger s = LWait n →
  ∃ s', run (replicate (N.to_nat n) Tick ++ replicate 4 (RunLogger true true))
            s = Some s'
        ∧ logger s' = LDone.
Proof.
  intros Hf Hl. rewrite run_app, run_ticks. cbn [mbind option_bind].
  pose proof (iter_tick_wait (N.to_nat n) n s Hl) as Hw.
  replace (n - N.of_nat (N.to_nat n))%N with 0%N in Hw by lia.
  pose proof (iter_tick_flag (N.to_nat n) s) as Hf'. rewrite Hf in Hf'.
  eexists. split.
  - cbn [replicate run step]. unfold logger_step at 1. rewrite Hw.
    cbn. rewrite Hf'. reflexivity.
  - reflexivity.
Qed.

(** With the flag set, the logger can be run to its exit. *)
Lemma logger_exit_run s :
  shutdown_flag s = true →
  ∃ s', run (logger_exit (logger s)) s = Some s' ∧ logger s' = LDone.
Proof.
  intros Hf. destruct (logger s) as [| | |n| | |b|] eqn:Hl; cbn [logger_exit].
  - eexists. split.
    + cbn [replicate run step]. unfold logger_step at 1. rewrite Hl.
      cbn. rewrite Hf. reflexivity.
    + reflexivity.
  - eexists. split.
    + cbn [replicate run step]. unfold logger_step at 1. rewrite Hl, Hf.
      reflexivity.
    + reflexivity.
  - rewrite run_cons. cbn [step]. unfold logger_step at 1. rewrite Hl.
    cbn [mbind option_bind]. by apply waiting_logger_leaves.
  - by apply waiting_logger_leaves.
  - by apply woken_logger_leaves.
  - eexists. split.
    + cbn [replicate run step]. unfold logger_step at 1. rewrite Hl.
      cbn. rewrite Hf. reflexivity.
    + reflexivity.
  - eexists. split.
    + cbn [replicate run step]. unfold logger_step at 1. rewrite Hl.
      cbn. rewrite Hf. reflexivity.
    + reflexivity.
  - exists s. by split.
Qed.

Lemma joins_can_return s :
  shutdown_flag s = true →
  main_pc s = MJoin ∨ main_pc s = MDone →
  ∃ sched s', run sched s = Some s'
              ∧ Forall (fun e => e ≠ SpuriousWake) sched
              ∧ main_pc s' = MDone
              ∧ shutdown_flag s' = true
              ∧ logger s' = LDone
              ∧ ∀ k p, sensors s' !! k = Some p → p = SDone.
Proof.
  intros Hf Hm.
  destruct (sensors_exit_upto (length (sensors s)) s Hf)
    as (sched1 & s1 & Hrun1 & Hno1 & Hdone1); [done|].
  destruct (logger_exit_run s1) as (s2 & Hrun2 & Hl2);
    [by eapply run_flag_stays|].
  assert (Hrun : run (sched1 ++ logger_exit (logger s1)) s = Some s2)
    by (by rewrite run_app, Hrun1).
  assert (Hno : Forall (fun e => e ≠ SpuriousWake)
                  (sched1 ++ logger_exit (logger s1)))
    by (apply Forall_app; split; [done|apply logger_exit_no_spurious]).
  assert (Hf2 : shutdown_flag s2 = true) by by eapply run_flag_stays.
  assert (Hall : ∀ k p, sensors s2 !! k = Some p → p = SDone).
  { intros k p Hk.
    assert (sensors s2 !! k = Some SDone); [|congruence].
    eapply run_done_stays; [exact Hrun2|]. apply Hdone1.
    apply lookup_lt_Some in Hk.
    rewrite (run_sensors_length _ _ _ Hrun2),
      (run_sensors_length _ _ _ Hrun1) in Hk. done. }
  destruct (run_main_joined _ _ _ Hrun Hm) as [Hm2|Hm2].
  - exists ((sched1 ++ logger_exit (logger s1)) ++ [RunMain]).
    exists (set_main MDone s2). split; [|split].
    + rewrite run_app, Hrun. cbn [mbind option_bind run step].
      unfold main_step. rewrite Hm2.
      assert (all_joined s2 = true) as ->; [|reflexivity].
      by apply all_joined_spec.
    + apply Forall_app. split; [done|]. by repeat constructor.
    + done.
  - exists (sched1 ++ logger_exit (logger s1)), s2. done.
Qed.

Lemma iter_tick_main n m s :
  main_pc s = MSleep m →
  main_pc (Nat.iter n tick s) = MSleep (m - N.of_nat n).
Proof.
  revert m. induction n as [|n IH]; intros m Hl.
  - cbn. rewrite Hl. f_equal. lia.
  - change (Nat.iter (S n) tick s) with (tick (Nat.iter n tick s)).
    cbn [tick main_pc]. rewrite (IH m Hl). cbn. f_equal. lia.
Qed.

End Completion.

(** X10: no state of a run of the program is a dead end, and no spurious
    wake-up is needed to get out: from every such state there is a
    continuation without spurious wake-ups in which [main] sets the flag
    if it has not yet, every sensor and the logger leave their loops and
    the joins of [main] return. *)
Theorem X10_shutdown_can_complete sched0 s :
  run sched0 init = Some s →
  ∃ sched s', run sched s = Some s'
              ∧ Forall (fun e => e ≠ SpuriousWake) sched
              ∧ main_pc s' = MDone
              ∧ shutdown_flag s' = true
              ∧ logger s' = LDone
              ∧ ∀ k p, sensors s' !! k = Some p → p = SDone.
Proof.
  intros Hrun0.
  destruct (run_shutdown_inv sched0 init s init_shutdown_inv Hrun0)
    as (Ha & _ & _ & Hd).
  destruct (main_pc s) as [n| | |] eqn:Hm.
  - pose proof (iter_tick_main (N.to_nat n) n s Hm) as Hw.
    replace (n - N.of_nat (N.to_nat n))%N with 0%N in Hw by lia.
    set (s1 := Nat.iter (N.to_nat n) tick s) in *.
    destruct (joins_can_return
                (set_main MJoin (notify_all (set_main MNotify
                                               (set_flag true s1)))))
      as (sched & s' & Hrun & Hno & Hdone).
    + cbn. by rewrite notify_all_flag.
    + by left.
    + exists (replicate (N.to_nat n) Tick ++ [RunMain; RunMain] ++ sched), s'.
      split; [|split; [|done]].
      * rewrite run_app, run_ticks. cbn [mbind option_bind]. fold s1.
        rewrite run_app. cbn [run step]. unfold main_step at 1. rewrite Hw.
        unfold main_step at 1. cbn [main_pc set_main]. exact Hrun.
      * apply Forall_app. split; [by apply Forall_replicate|].
        apply Forall_app. split; [by repeat constructor|done].
  - destruct Ha as [Hf _].
    destruct (joins_can_return (set_main MJoin (notify_all s)))
      as (sched & s' & Hrun & Hno & Hdone).
    + cbn. by rewrite notify_all_flag.
    + by left.
    + exists (RunMain :: sched), s'. split; [|split; [|done]].
      * cbn [run step]. unfold main_step. by rewrite Hm.
      * by constructor.
  - destruct Ha as [Hf _]. apply joins_can_return; [done|]. left. done.
  - destruct Ha as [Hf _]. exists [], s.
    split; [done|]. split; [constructor|]. split; [done|]. split; [done|].
    by apply all_joined_spec, Hd.
Qed.

Lemma X10_shutdown_can_complete_witness :
  ∃ sched s', run (missed_stop_run ++ sched) init = Some s'
              ∧ Forall (fun e => e ≠ SpuriousWake) sched
              ∧ main_pc s' = MDone
              ∧ logger s' = LDone.
Proof.
  destruct (run missed_stop_run init) as [s|] eqn:Hrun;
    [|vm_compute in Hrun; discriminate].
  destruct (X10_shutdown_can_complete missed_stop_run s Hrun)
    as (sched & s' & Hrun' & Hno & Hdone & _ & Hl & _).
  exists sched, s'. split; [|split; [exact Hno|split; [exact Hdone|exact Hl]]].
  rewrite (run_app missed_stop_run sched init), Hrun. exact Hrun'.
Defined.
